(** * PDF site extractor: the crawl engine and the download loop

    A shallow embedding of [pdf_crawler.py] (class [PDFCrawler]),
    [simple_pdf_finder.py] ([find_all_pdfs]) and [download_pdfs.py]
    ([download_pdf], [download_from_file]), and of what surrounds them: the
    list file of [save_pdf_list] and its readers, the directory names of
    [utils.py] ([sanitize_domain], [create_session_directory]),
    [print_header], and the choice of old sessions in
    [session_manager.py] ([delete_old_sessions_menu]).

    Python [str] values are [string]s (the UTF-8 bytes of the text), Python
    [int]s are [Z], Python [set]s of strings are [gset string] (their
    iteration order is [elements], which is fixed but unspecified), the
    [deque] is a [list] popped at its head and appended at its tail.

    What the code gets from [requests], [bs4], [urllib.parse] and the
    operating system is gathered in the class [World]; every theorem holds
    for every instance of it. A site answers a URL the same way each time
    it is asked; the HTML parser always returns; [urljoin] raises
    [ValueError] on an [href] it cannot split, and [urlparse] returns on
    the start URL and on every URL that [urljoin] has returned, which
    [urljoin] has split itself; the [print]s, [time.sleep(self.delay)] and
    [os.makedirs] are left out (the delay is not negative and the output
    directory can be made); the URLs of a list given to [download_from_file]
    are URLs that [urlparse] splits, as those that [save_pdf_list] writes
    are. *)

From Stdlib Require Import ZArith Lia Ascii String.
From stdpp Require Import base strings gmap list sorting pretty.

Local Open Scope Z_scope.

(** ** Strings *)

(** [c.lower()] on one character. Only the letters A-Z change; the bytes of
    a non-ASCII character are left alone ([str.lower] never yields one of
    the ASCII characters [.pdf] from a non-ASCII one, so the suffix test of
    [is_pdf] reads the same on both). *)
Definition lower_ascii (c : ascii) : ascii :=
  let n := nat_of_ascii c in
  if ((65 <=? n) && (n <=? 90))%nat then ascii_of_nat (n + 32) else c.

(** [s.lower()] *)
Fixpoint lower (s : string) : string :=
  match s with
  | EmptyString => EmptyString
  | String c s' => String (lower_ascii c) (lower s')
  end.

(** [s.startswith(p)] *)
Fixpoint startswith (s p : string) : bool :=
  match p, s with
  | EmptyString, _ => true
  | String _ _, EmptyString => false
  | String b p', String a s' => if Ascii.eqb a b then startswith s' p' else false
  end.

(** [s.endswith(suffix)]: some tail of [s] is [suffix]. *)
Fixpoint endswith (s suffix : string) : bool :=
  if String.eqb s suffix then true
  else match s with
       | EmptyString => false
       | String _ s' => endswith s' suffix
       end.

(** [s.split(sep)[0]] for a one-character separator: the text before the
    first [sep], all of [s] when there is none. *)
Fixpoint split_0 (sep : ascii) (s : string) : string :=
  match s with
  | EmptyString => EmptyString
  | String c s' => if Ascii.eqb c sep then EmptyString else String c (split_0 sep s')
  end.

(** [c in s] for a character [c] *)
Definition contains (c : ascii) (s : string) : bool :=
  existsb (Ascii.eqb c) (list_ascii_of_string s).

(** [os.path.basename(p)]: the text after the last slash. *)
Fixpoint basename (p : string) : string :=
  match p with
  | EmptyString => EmptyString
  | String c p' =>
      if Ascii.eqb c "/"%char then basename p'
      else if existsb (Ascii.eqb "/"%char) (list_ascii_of_string p') then basename p'
      else p
  end.

(** [os.path.join(d, f)] for a relative [f] (a basename holds no slash). *)
Definition os_path_join (d f : string) : string :=
  if String.eqb d "" then f
  else if endswith d "/" then d +:+ f
  else d +:+ "/" +:+ f.

(** ** The outside world *)

(** A [requests.Response]: the status code and the body. *)
Record Response (Body : Type) := mkResponse {
  status_code : Z;
  content : Body
}.
Arguments mkResponse {Body} _ _.
Arguments status_code {Body} _.
Arguments content {Body} _.

(** [response.raise_for_status()] raises for the codes 400 to 599. *)
Definition raises_for_status {Body} (r : Response Body) : bool :=
  (400 <=? status_code r) && (status_code r <? 600).

(** What [with open(filepath, 'wb') as f: f.write(body)] does to the disk:
    [open] may raise and leave the disk as it is; once it has succeeded the
    file exists and is empty, and a failing [write] leaves in it whatever
    part of the body got through. *)
Inductive WriteResult (Body : Type) :=
  | Written
  | OpenRaises
  | WriteRaises (left_on_disk : Body).
Arguments Written {Body}.
Arguments OpenRaises {Body}.
Arguments WriteRaises {Body} _.

Class World := {
  Body : Type;
  (** [session.get(url, timeout=...)]: [None] when it raises (transport
      error, timeout). *)
  session_get : string -> option (Response Body);
  (** [[link['href'] for link in BeautifulSoup(body).find_all('a', href=True)]] *)
  find_all_a_href : Body -> list string;
  (** [urllib.parse.urljoin(url, href)]: [None] when it raises
      [ValueError] *)
  urljoin : string -> string -> option string;
  (** [urlparse(url).netloc] and [urlparse(url).path] *)
  netloc : string -> string;
  path : string -> string;
  (** how writing a body to a path ends, on a given disk *)
  write_result : gmap string Body -> string -> Body -> WriteResult Body;
  (** the built-in [hash] on [str] *)
  hash : string -> Z
}.

(** ** [pdf_crawler.py]: class [PDFCrawler] *)

(** The attributes of a [PDFCrawler] that the crawl reads and writes.
    [get_log] is not an attribute of the class: it lists, oldest first, the
    URLs that [get_page_links] has handed to [session.get], so that the
    theorems can speak about what was fetched. *)
Record PDFCrawler := mkPDFCrawler {
  base_url : string;
  base_domain : string;
  max_depth : Z;
  visited_urls : gset string;
  pdf_urls : gset string;
  get_log : list string
}.

Definition set_visited_urls (self : PDFCrawler) (v : gset string) : PDFCrawler :=
  mkPDFCrawler (base_url self) (base_domain self) (max_depth self) v (pdf_urls self) (get_log self).

Definition set_pdf_urls (self : PDFCrawler) (p : gset string) : PDFCrawler :=
  mkPDFCrawler (base_url self) (base_domain self) (max_depth self) (visited_urls self) p (get_log self).

Definition log_get (self : PDFCrawler) (url : string) : PDFCrawler :=
  mkPDFCrawler (base_url self) (base_domain self) (max_depth self) (visited_urls self)
    (pdf_urls self) (get_log self ++ [url]).

(** The frontier: the [deque] of [(url, depth)] pairs. *)
Abbreviation Queue := (list (string * Z)).

(** Two crawlers with the same start URL, domain and depth bound. *)
Definition same_base (a b : PDFCrawler) : Prop :=
  base_url a = base_url b ∧ base_domain a = base_domain b ∧ max_depth a = max_depth b.

(** [PDFCrawler.is_pdf] *)
Definition is_pdf (url : string) : bool := endswith (lower url) ".pdf".

Section Crawler.
Context {W : World}.

(** [PDFCrawler.__init__] *)
Definition PDFCrawler_init (base_url : string) (max_depth : Z) : PDFCrawler :=
  mkPDFCrawler base_url (netloc base_url) max_depth ∅ ∅ [].

(** [PDFCrawler.is_valid_url] *)
Definition is_valid_url (self : PDFCrawler) (url : string) : bool :=
  if negb (String.eqb (netloc url) (base_domain self)) then false
  else
    let base_path := path (base_url self) in
    if negb (startswith (path url) base_path) then false
    else true.

(** The body of the [for link in soup.find_all('a', href=True)] loop of
    [get_page_links], on the pair of the local [links] and [self]; [None]
    when [urljoin] raises. *)
Definition page_link (url : string) (acc : gset string * PDFCrawler) (href : string)
  : option (gset string * PDFCrawler) :=
  let '(links, self) := acc in
  match urljoin url href with
  | None => None
  | Some full_url =>
      let full_url := split_0 "#" full_url in
      if is_pdf full_url then Some (links, set_pdf_urls self ({[full_url]} ∪ pdf_urls self))
      else if is_valid_url self full_url then Some ({[full_url]} ∪ links, self)
      else Some (links, self)
  end.

(** The loop itself, inside the [try]: at the first [href] on which the
    body raises, the [except Exception] takes over and the empty set is
    returned, with the PDFs added so far left in [self]. *)
Fixpoint page_links (url : string) (acc : gset string * PDFCrawler) (hrefs : list string)
  : gset string * PDFCrawler :=
  match hrefs with
  | [] => acc
  | href :: hrefs =>
      match page_link url acc href with
      | None => (∅, acc.2)
      | Some acc => page_links url acc hrefs
      end
  end.

(** [PDFCrawler.get_page_links]: the links of the page and [self] after the
    call. Whatever [session.get], [raise_for_status] or the loop over the
    links raises is caught by the [except Exception] and the empty set is
    returned. *)
Definition get_page_links (self : PDFCrawler) (url : string) : gset string * PDFCrawler :=
  let self := log_get self url in
  match session_get url with
  | None => (∅, self)
  | Some response =>
      if raises_for_status response then (∅, self)
      else page_links url (∅, self) (find_all_a_href (content response))
  end.

(** The body of [for link in links] in [crawl]. *)
Definition enqueue_link (depth : Z) (acc : PDFCrawler * Queue) (link : string)
  : PDFCrawler * Queue :=
  let '(self, queue) := acc in
  if decide (link ∈ visited_urls self) then (self, queue)
  else (set_visited_urls self ({[link]} ∪ visited_urls self), queue ++ [(link, depth + 1)]).

(** One turn of [while queue:] in [crawl]; [None] when the queue is empty
    and the loop is left. *)
Definition crawl_iteration (self : PDFCrawler) (queue : Queue) : option (PDFCrawler * Queue) :=
  match queue with
  | [] => None
  | (url, depth) :: queue =>
      if max_depth self <? depth then Some (self, queue)
      else
        let '(links, self) := get_page_links self url in
        Some (foldl (enqueue_link depth) (self, queue) (elements links))
  end.

(** The [while] loop, with fuel for its turns. *)
Fixpoint crawl_loop (fuel : nat) (self : PDFCrawler) (queue : Queue) : option PDFCrawler :=
  match fuel with
  | O => None
  | S fuel =>
      match crawl_iteration self queue with
      | None => Some self
      | Some (self, queue) => crawl_loop fuel self queue
      end
  end.

(** The state in which [crawl] enters its loop. *)
Definition crawl_start (self : PDFCrawler) : PDFCrawler * Queue :=
  (set_visited_urls self ({[base_url self]} ∪ visited_urls self), [(base_url self, 0)]).

(** [PDFCrawler.crawl] *)
Definition crawl (fuel : nat) (self : PDFCrawler) : option PDFCrawler :=
  let '(self, queue) := crawl_start self in
  crawl_loop fuel self queue.

(** The states of the loop of [crawl]: the one it starts in, and each one a
    turn of the loop leads to. *)
Inductive crawl_reaches (self0 : PDFCrawler) : PDFCrawler -> Queue -> Prop :=
  | reaches_start :
      crawl_reaches self0 (crawl_start self0).1 (crawl_start self0).2
  | reaches_turn self queue self' queue' :
      crawl_reaches self0 self queue ->
      crawl_iteration self queue = Some (self', queue') ->
      crawl_reaches self0 self' queue'.

End Crawler.

(** ** [simple_pdf_finder.py]: [find_all_pdfs] *)

(** The local variables of [find_all_pdfs]; [scan_log] lists, oldest first,
    the URLs handed to [session.get]. *)
Record Scan := mkScan {
  visited : gset string;
  pdfs : gset string;
  queue : list string;
  scan_log : list string
}.

Section Finder.
Context {W : World}.

(** The body of [for link in soup.find_all('a', href=True)], on the pair of
    [pdfs] and [queue]; [visited] does not change inside that loop. [None]
    when [urljoin] raises. *)
Definition scan_link (base_domain base_path url : string) (visited : gset string)
    (acc : gset string * list string) (href : string) : option (gset string * list string) :=
  let '(pdfs, queue) := acc in
  match urljoin url href with
  | None => None
  | Some full_url =>
      let full_url := split_0 "#" full_url in
      if endswith (lower full_url) ".pdf" then Some ({[full_url]} ∪ pdfs, queue)
      else if String.eqb (netloc full_url) base_domain
              && startswith (path full_url) base_path
              && bool_decide (full_url ∉ visited)
           then Some (pdfs, queue ++ [full_url])
           else Some (pdfs, queue)
  end.

(** The loop itself, inside the [try]: the first [href] on which the body
    raises ends it, and the [except Exception] leaves [pdfs] and [queue] as
    they are by then. *)
Fixpoint scan_links (base_domain base_path url : string) (visited : gset string)
    (acc : gset string * list string) (hrefs : list string) : gset string * list string :=
  match hrefs with
  | [] => acc
  | href :: hrefs =>
      match scan_link base_domain base_path url visited acc href with
      | None => acc
      | Some acc => scan_links base_domain base_path url visited acc hrefs
      end
  end.

(** One turn of [while queue:]; [None] when the queue is empty. There is no
    [raise_for_status] here: the body of a response is parsed whatever its
    status code, and only a raising [session.get] or a raising [urljoin]
    reaches the [except]. *)
Definition scan_iteration (base_url : string) (st : Scan) : option Scan :=
  let base_domain := netloc base_url in
  let base_path := path base_url in
  match queue st with
  | [] => None
  | url :: queue =>
      if decide (url ∈ visited st) then Some (mkScan (visited st) (pdfs st) queue (scan_log st))
      else
        let visited := {[url]} ∪ visited st in
        let log := scan_log st ++ [url] in
        match session_get url with
        | None => Some (mkScan visited (pdfs st) queue log)
        | Some response =>
            let '(pdfs, queue) :=
              scan_links base_domain base_path url visited (pdfs st, queue)
                (find_all_a_href (content response)) in
            Some (mkScan visited pdfs queue log)
        end
  end.

Fixpoint scan_loop (fuel : nat) (base_url : string) (st : Scan) : option Scan :=
  match fuel with
  | O => None
  | S fuel =>
      match scan_iteration base_url st with
      | None => Some st
      | Some st => scan_loop fuel base_url st
      end
  end.

(** The state in which [find_all_pdfs] enters its loop. *)
Definition scan_start (base_url : string) : Scan := mkScan ∅ ∅ [base_url] [].

(** [find_all_pdfs]: it returns [(pdfs, visited)]; here the whole final
    state, which holds both. *)
Definition find_all_pdfs (fuel : nat) (base_url : string) : option Scan :=
  scan_loop fuel base_url (scan_start base_url).

(** The states of the loop of [find_all_pdfs]. *)
Inductive scan_reaches (base_url : string) : Scan -> Prop :=
  | scan_reaches_start : scan_reaches base_url (scan_start base_url)
  | scan_reaches_turn st st' :
      scan_reaches base_url st ->
      scan_iteration base_url st = Some st' ->
      scan_reaches base_url st'.

End Finder.

(** ** Downloads: [PDFCrawler.download_pdfs] and [download_pdfs.py] *)

(** What the loop prints for one item: the file name it derived and
    whether the item ended in the success line or in the error line. *)
Inductive Status := Succeeded | Failed.

Record Outcome := mkOutcome {
  out_url : string;
  out_filename : string;
  out_status : Status
}.

Section Download.
Context {W : World}.

(** The disk: the content of each file, by path. *)
Abbreviation Disk := (gmap string Body).

(** [response = session.get(url, timeout=30); response.raise_for_status();
    with open(filepath, 'wb') as f: f.write(response.content)],
    the same lines in [PDFCrawler.download_pdfs] and in [download_pdf],
    inside their [try]. *)
Definition get_and_write (disk : Disk) (url filepath : string) : Disk * Status :=
  match session_get url with
  | None => (disk, Failed)
  | Some response =>
      if raises_for_status response then (disk, Failed)
      else
        match write_result disk filepath (content response) with
        | Written => (<[filepath := content response]> disk, Succeeded)
        | OpenRaises => (disk, Failed)
        | WriteRaises part => (<[filepath := part]> disk, Failed)
        end
  end.

(** The file name [PDFCrawler.download_pdfs] derives for item [i]. *)
Definition crawler_filename (i : nat) (pdf_url : string) : string :=
  let filename := basename (path pdf_url) in
  if String.eqb filename "" || negb (endswith filename ".pdf")
  then "document_" +:+ pretty i +:+ ".pdf"
  else filename.

(** The body of [for i, pdf_url in enumerate(sorted(self.pdf_urls), 1)],
    on the disk and the lines printed so far. *)
Definition download_item (output_dir : string) (acc : Disk * list Outcome)
    (item : nat * string) : Disk * list Outcome :=
  let '(disk, report) := acc in
  let '(i, pdf_url) := item in
  let filename := crawler_filename i pdf_url in
  let filepath := os_path_join output_dir filename in
  let '(disk, status) := get_and_write disk pdf_url filepath in
  (disk, report ++ [mkOutcome pdf_url filename status]).

(** [enumerate(l, 1)] *)
Definition enumerate_1 {A} (l : list A) : list (nat * A) :=
  imap (fun i x => (S i, x)) l.

(** [sorted(s)] for a set of strings *)
Definition sorted (s : gset string) : list string :=
  merge_sort String.le (elements s).

(** [PDFCrawler.download_pdfs] *)
Definition download_pdfs (self : PDFCrawler) (output_dir : string) (disk : Disk)
  : Disk * list Outcome :=
  if decide (pdf_urls self = ∅) then (disk, [])
  else foldl (download_item output_dir) (disk, []) (enumerate_1 (sorted (pdf_urls self))).

(** [download_pdf] of [download_pdfs.py]: the disk after the call and the
    boolean it returns. *)
Definition download_pdf (url output_dir : string) (disk : Disk) : Disk * bool :=
  let filename := basename (path url) in
  let filename :=
    if String.eqb filename "" || negb (endswith filename ".pdf")
    then "document_" +:+ pretty (hash url) +:+ ".pdf"
    else filename in
  let filepath := os_path_join output_dir filename in
  let '(disk, status) := get_and_write disk url filepath in
  (disk, match status with Succeeded => true | Failed => false end).

(** The body of [for i, url in enumerate(urls, 1)] in [download_from_file],
    on the disk, the counter [success] and the list of the URLs tried with
    what [download_pdf] returned for each. *)
Definition download_file_item (output_dir : string)
    (acc : Disk * nat * list (string * bool)) (url : string)
  : Disk * nat * list (string * bool) :=
  let '(disk, success, tried) := acc in
  let '(disk, ok) := download_pdf url output_dir disk in
  (disk, if ok then S success else success, tried ++ [(url, ok)]).

(** [download_from_file], from the list [urls] it has read. *)
Definition download_from_file (urls : list string) (output_dir : string) (disk : Disk)
  : Disk * nat * list (string * bool) :=
  match urls with
  | [] => (disk, O, [])
  | _ => foldl (download_file_item output_dir) (disk, O, []) urls
  end.

(** The disk and the lines printed once the loop of [download_pdfs] has
    gone through the first [k] items. *)
Definition download_prefix (self : PDFCrawler) (output_dir : string) (disk : Disk) (k : nat)
  : Disk * list Outcome :=
  foldl (download_item output_dir) (disk, []) (take k (enumerate_1 (sorted (pdf_urls self)))).

End Download.

(** ** [menu.py]: [run_crawler] *)

(** [metadata['pages_scanned']], which is [len(crawler.visited_urls)]; the
    same number [crawl] prints as the total of pages crawled. *)
Definition pages_scanned (crawler : PDFCrawler) : nat := size (visited_urls crawler).

(** ** The site as a graph *)

Section Site.
Context {W : World}.

(** The link targets that a loop over the [hrefs] of the page at [url]
    gets to: each [href] joined to [url], fragment removed, up to the first
    [href] on which [urljoin] raises. *)
Fixpoint joined (url : string) (hrefs : list string) : list string :=
  match hrefs with
  | [] => []
  | href :: hrefs =>
      match urljoin url href with
      | None => []
      | Some full_url => split_0 "#" full_url :: joined url hrefs
      end
  end.

(** [urljoin] raises on one of the [hrefs]. *)
Definition refuses (url : string) (hrefs : list string) : bool :=
  existsb (fun href => match urljoin url href with None => true | Some _ => false end) hrefs.

(** The link targets of the page at [url] that [find_all_pdfs] goes
    through. A request that raises gives no page. *)
Definition page_targets (url : string) : list string :=
  match session_get url with
  | None => []
  | Some response => joined url (find_all_a_href (content response))
  end.

(** The link targets that [PDFCrawler.get_page_links] goes through: those
    of a response that [raise_for_status] lets pass. *)
Definition crawl_targets (url : string) : list string :=
  match session_get url with
  | None => []
  | Some response =>
      if raises_for_status response then []
      else joined url (find_all_a_href (content response))
  end.

(** The link targets among which [PDFCrawler.get_page_links] returns the
    pages to crawl: none when the loop over the links was cut short. *)
Definition crawl_links (url : string) : list string :=
  match session_get url with
  | None => []
  | Some response =>
      if refuses url (find_all_a_href (content response)) then [] else crawl_targets url
  end.

(** The request for [url] fails as [PDFCrawler] understands it:
    [session.get] raises, or the status code makes [raise_for_status]
    raise. *)
Definition fetch_fails (url : string) : Prop :=
  session_get url = None ∨
  ∃ response, session_get url = Some response ∧ raises_for_status response = true.

(** The scope test on a link: same [netloc] as the start URL, and a path
    that starts with the path of the start URL. *)
Definition in_scope (base_url url : string) : bool :=
  String.eqb (netloc url) (netloc base_url) && startswith (path url) (path base_url).

(** A finite site: a finite set of pages that holds the start URL and, for
    each of its pages, every link target of the page that is in scope and
    is no PDF. *)
Definition finite_site (base_url : string) (pages : gset string) : Prop :=
  base_url ∈ pages ∧
  ∀ url target,
    url ∈ pages -> target ∈ page_targets url ->
    is_pdf target = false -> in_scope base_url target = true ->
    target ∈ pages.

(** [link_chain self d url]: [url] is at the end of a chain of [d] links
    that starts at the start URL, each link being one that
    [get_page_links] returns for the page before it. The BFS distance of
    [url] is the least such [d]. *)
Inductive link_chain (self : PDFCrawler) : nat -> string -> Prop :=
  | chain_root : link_chain self 0 (base_url self)
  | chain_link d url link :
      link_chain self d url ->
      link ∈ (get_page_links self url).1 ->
      link_chain self (S d) link.

(** The BFS distance of [url] from the start URL is more than [n]: no chain
    of at most [n] links leads to it. *)
Definition farther_than (self : PDFCrawler) (n : Z) (url : string) : Prop :=
  ∀ d : nat, Z.of_nat d <= n -> ¬ link_chain self d url.

(** What is left to do in a crawl of the site: the pages not yet marked,
    and the pairs waiting. *)
Definition crawl_measure (pages : gset string) (self : PDFCrawler) (queue : Queue) : nat :=
  (size (pages ∖ visited_urls self) + length queue)%nat.

(** [url] is marked, not fetched, and waits in the frontier only at depths
    beyond [max_depth]. *)
Definition never_fetched (url : string) (self : PDFCrawler) (queue : Queue) : Prop :=
  url ∈ visited_urls self ∧ (url ∉ get_log self) ∧
  ∀ d, (url, d) ∈ queue -> max_depth self < d.

End Site.

(** ** The searches as a whole *)

Section Search.
Context {W : World}.

(** The bookkeeping of the breadth-first search: [done] lists the pairs
    taken from the frontier so far, oldest first. *)
Definition bfs_inv (self0 self : PDFCrawler) (done queue : Queue) : Prop :=
  same_base self self0 ∧
  (base_url self0, 0) ∈ done ++ queue ∧
  (∀ u, u ∈ visited_urls self ↔ u ∈ (done ++ queue).*1) ∧
  NoDup (done ++ queue).*1 ∧
  StronglySorted Z.le (done ++ queue).*2 ∧
  (∀ u d url dh rest, (u, d) ∈ done ++ queue -> queue = (url, dh) :: rest -> d <= dh + 1) ∧
  (∀ u d, (u, d) ∈ done ++ queue ->
          0 <= d <= Z.max 0 (max_depth self0 + 1) ∧ link_chain self0 (Z.to_nat d) u) ∧
  get_log self = (filter (λ p, p.2 <= max_depth self0) done).*1 ∧
  (∀ u d link,
     (u, d) ∈ done -> d <= max_depth self0 -> link ∈ (get_page_links self0 u).1 ->
     ∃ d', (link, d') ∈ done ++ queue ∧ d' <= d + 1).

(** [target] is a link of the page at [url] that [find_all_pdfs] follows:
    in scope and no PDF. *)
Definition scan_follows (base_url url target : string) : Prop :=
  target ∈ page_targets url ∧ is_pdf target = false ∧ in_scope base_url target = true.

(** The pages [find_all_pdfs] can come to from the start URL. *)
Inductive scan_reachable (base_url : string) : string -> Prop :=
  | reachable_root : scan_reachable base_url base_url
  | reachable_link url target :
      scan_reachable base_url url ->
      scan_follows base_url url target ->
      scan_reachable base_url target.

(** The test by which both download loops give up the last segment of the
    path and fall back to a made-up name. *)
Definition falls_back (url : string) : bool :=
  String.eqb (basename (path url)) "" || negb (endswith (basename (path url)) ".pdf").

End Search.

(** ** PDF lists on disk *)

(** The line feed and the carriage return. *)
Definition LF : ascii := "010"%char.
Definition CR : ascii := "013"%char.

(** [for pdf_url in sorted(pdf_urls): f.write(f"{pdf_url}\n")]: the text
    that [PDFCrawler.save_pdf_list], [utils.save_pdf_list] and the script
    of [simple_pdf_finder.py] write to the list file. *)
Definition save_pdf_list (pdf_urls : gset string) : string :=
  foldl (λ text pdf_url, text +:+ pdf_url +:+ String LF "") "" (sorted pdf_urls).

(** [for line in f] on a file opened in text mode: the lines of the text,
    each with its line end, where [\n], [\r\n] and [\r] all end a line and
    are read as [\n]. *)
Fixpoint readlines (text : string) : list string :=
  match text with
  | EmptyString => []
  | String c rest =>
      if Ascii.eqb c LF then String LF "" :: readlines rest
      else if Ascii.eqb c CR then
        String LF "" :: match rest with
                        | String c' rest' => if Ascii.eqb c' LF then readlines rest' else readlines rest
                        | EmptyString => []
                        end
      else match readlines rest with
           | [] => [String c ""]
           | line :: lines => String c line :: lines
           end
  end.

(** [str.isspace] on the characters of one, two and three bytes: the
    white space of Python is U+0009..000D, U+001C..0020, U+0085, U+00A0,
    U+1680, U+2000..200A, U+2028, U+2029, U+202F, U+205F and U+3000. *)
Definition isspace_1 (a : ascii) : bool :=
  let n := nat_of_ascii a in
  ((9 <=? n) && (n <=? 13) || (28 <=? n) && (n <=? 32))%nat.

Definition isspace_2 (a b : ascii) : bool :=
  ((nat_of_ascii a =? 194) && ((nat_of_ascii b =? 133) || (nat_of_ascii b =? 160)))%nat.

Definition isspace_3 (a b c : ascii) : bool :=
  let '(x, y, z) := (nat_of_ascii a, nat_of_ascii b, nat_of_ascii c) in
  ((x =? 225) && (y =? 154) && (z =? 128)
   || (x =? 226) && (y =? 128)
      && ((128 <=? z) && (z <=? 138) || (z =? 168) || (z =? 169) || (z =? 175))
   || (x =? 226) && (y =? 129) && (z =? 159)
   || (x =? 227) && (y =? 128) && (z =? 128))%nat.

(** Dropping the white space at the head of a list of bytes, given the
    tests for the characters of two and of three bytes. *)
Fixpoint strip_head (sp2 : ascii -> ascii -> bool) (sp3 : ascii -> ascii -> ascii -> bool)
    (l : list ascii) : list ascii :=
  match l with
  | [] => []
  | a :: l1 =>
      if isspace_1 a then strip_head sp2 sp3 l1
      else match l1 with
           | [] => l
           | b :: l2 =>
               if sp2 a b then strip_head sp2 sp3 l2
               else match l2 with
                    | [] => l
                    | c :: l3 => if sp3 a b c then strip_head sp2 sp3 l3 else l
                    end
           end
  end.

(** [s.lstrip()], [s.rstrip()] and [s.strip()] *)
Definition lstrip (l : list ascii) : list ascii := strip_head isspace_2 isspace_3 l.

Definition rstrip (l : list ascii) : list ascii :=
  reverse (strip_head (λ b a, isspace_2 a b) (λ c b a, isspace_3 a b c) (reverse l)).

Definition strip (s : string) : string :=
  string_of_list_ascii (rstrip (lstrip (list_ascii_of_string s))).

(** [[line.strip() for line in f if line.strip() and not line.startswith('#')]]
    of [download_from_file] *)
Definition read_urls (text : string) : list string :=
  strip <$> List.filter (λ line, negb (String.eqb (strip line) "") && negb (startswith line "#"))
                        (readlines text).

(** [[line.strip() for line in f if line.strip()]] of [view_pdf_list] *)
Definition read_pdf_list (text : string) : list string :=
  strip <$> List.filter (λ line, negb (String.eqb (strip line) "")) (readlines text).

(** What a URL needs to come back from the list file as it went in: it is
    not empty, has no white space at either end and no line end inside. *)
Definition survives_list (url : string) : Prop :=
  url ≠ "" ∧ strip url = url ∧ contains LF url = false ∧ contains CR url = false.

(** ** Sessions and their dates *)

(** A calendar day, as [datetime] holds it. *)
Record Date := mkDate { year : Z; month : Z; day : Z }.

(** The decimal digit [n] as a character. *)
Definition digit (n : Z) : ascii := ascii_of_nat (48 + Z.to_nat n).

(** [%m], [%d], [%H], [%M] and [%S]: two digits, padded with a zero. *)
Definition two_digits (n : Z) : string :=
  String (digit (n / 10 mod 10)) (String (digit (n mod 10)) "").

(** [%Y] for a year of four digits. *)
Definition four_digits (n : Z) : string :=
  String (digit (n / 1000 mod 10)) (String (digit (n / 100 mod 10)) (two_digits n)).

(** [d.strftime('%Y-%m-%d')] *)
Definition strftime_date (d : Date) : string :=
  four_digits (year d) +:+ "-" +:+ two_digits (month d) +:+ "-" +:+ two_digits (day d).

(** [datetime.now().strftime('%Y-%m-%d %H:%M:%S')], the time stamp that
    [run_crawler] stores in the metadata of a session. *)
Definition strftime_stamp (d : Date) (hour minute second : Z) : string :=
  strftime_date d +:+ " " +:+ two_digits hour +:+ ":" +:+ two_digits minute
                  +:+ ":" +:+ two_digits second.

(** A session as [get_all_sessions] returns it: its directory and the time
    stamp of its metadata, if the metadata could be loaded and has one. *)
Record Session := mkSession { session_path : string; metadata_timestamp : option string }.

(** [[s for s in sessions if s['metadata'].get('timestamp', '') <
    cutoff.strftime('%Y-%m-%d')]] of [delete_old_sessions_menu]: the
    comparison is that of [str]. *)
Definition sessions_before (cutoff : Date) (sessions : list Session) : list Session :=
  List.filter (λ s, String.ltb (default "" (metadata_timestamp s)) (strftime_date cutoff))
              sessions.

(** A day of the calendar with a year of four digits, and the order of
    the days. *)
Definition calendar_day (d : Date) : Prop :=
  1000 <= year d <= 9999 ∧ 1 <= month d <= 12 ∧ 1 <= day d <= 31.

Definition earlier (d1 d2 : Date) : Prop :=
  year d1 < year d2 ∨
  year d1 = year d2 ∧ (month d1 < month d2 ∨ month d1 = month d2 ∧ day d1 < day d2).

(** ** [print_header] *)

(** [len(text)]: the characters of a text, which are the bytes of its
    UTF-8 form that continue no character. *)
Definition len (text : string) : Z :=
  Z.of_nat (length (List.filter (λ c, negb ((128 <=? nat_of_ascii c) && (nat_of_ascii c <? 192))%nat)
                                (list_ascii_of_string text))).

(** [" " * n] *)
Definition spaces (n : Z) : string := string_of_list_ascii (replicate (Z.to_nat n) " "%char).

(** The text between the bars of the middle line of [print_header]. *)
Definition centered (text : string) : string :=
  let padding := (59 - len text) / 2 in
  spaces padding +:+ text +:+ spaces (59 - padding - len text).

(** ** Directory names *)

(** The bytes below 128 are the ASCII characters; those from 128 to 191
    continue a character of several bytes. *)
Definition is_ascii (c : ascii) : bool := (nat_of_ascii c <? 128)%nat.

Definition continues (c : ascii) : bool :=
  ((128 <=? nat_of_ascii c) && (nat_of_ascii c <? 192))%nat.

(** [\w] on an ASCII character: a letter, a digit or the underscore. *)
Definition word_ascii (c : ascii) : bool :=
  let n := nat_of_ascii c in
  ((48 <=? n) && (n <=? 57) || (65 <=? n) && (n <=? 90)
   || (97 <=? n) && (n <=? 122) || (n =? 95))%nat.

(** [s.replace(old, new)] for single characters *)
Fixpoint str_replace (old new : ascii) (s : string) : string :=
  match s with
  | EmptyString => EmptyString
  | String c s' => String (if Ascii.eqb c old then new else c) (str_replace old new s')
  end.

(** [s[4:]] behind a prefix of four ASCII characters *)
Definition drop_4 (s : string) : string :=
  match s with
  | String _ (String _ (String _ (String _ s'))) => s'
  | _ => EmptyString
  end.

Section Names.
Context {W : World}.

(** [\w] on a character beyond ASCII, given by the bytes of its UTF-8
    form: whether Unicode counts it as a letter or a digit. *)
Variable word_wide : string -> bool.

(** What [re.sub] leaves of a character of several bytes. *)
Definition sub_wide (pending : string) : string :=
  match pending with
  | EmptyString => EmptyString
  | _ => if word_wide pending then pending else String "_" ""
  end.

(** [re.sub(r'[^\w...]', '_', s)], character by character, for a class
    that holds [\w] and the ASCII characters of [others]: [pending] holds
    the bytes read of the character under way. A byte that continues no
    character, which no [str] holds, counts as a character outside the
    class. *)
Fixpoint sub_from (others : ascii -> bool) (pending s : string) : string :=
  match s with
  | EmptyString => sub_wide pending
  | String c s' =>
      if is_ascii c then
        sub_wide pending
          +:+ String (if word_ascii c || others c then c else "_"%char) (sub_from others "" s')
      else if continues c then
        match pending with
        | EmptyString => String "_" (sub_from others "" s')
        | _ => sub_from others (pending +:+ String c "") s'
        end
      else sub_wide pending +:+ sub_from others (String c "") s'
  end.

Definition re_sub (others : ascii -> bool) (s : string) : string := sub_from others "" s.

(** The classes [[^\w\.\-]] and [[^\w\-]] *)
Definition dot_or_dash (c : ascii) : bool := Ascii.eqb c "." || Ascii.eqb c "-".
Definition dash (c : ascii) : bool := Ascii.eqb c "-".

(** [sanitize_domain] *)
Definition sanitize_domain (url : string) : string :=
  let domain := netloc url in
  let domain := if startswith domain "www." then drop_4 domain else domain in
  let domain := str_replace ":" "_" domain in
  re_sub dot_or_dash domain.

(** The name that [create_session_directory] gives the session directory,
    for a custom name and the time stamp of [get_timestamp]: an empty
    custom name counts as none. *)
Definition session_name (custom_name : option string) (timestamp : string) : string :=
  match custom_name with
  | Some name => if String.eqb name "" then timestamp else re_sub dash name
  | None => timestamp
  end.

(** Every ASCII character of [s] is in the class. *)
Definition ascii_within (others : ascii -> bool) (s : string) : Prop :=
  ∀ c, contains c s = true -> is_ascii c = true -> word_ascii c || others c = true.

(** Every character of [s] is an ASCII character of the class. *)
Definition ascii_of_class (others : ascii -> bool) (s : string) : Prop :=
  ∀ c, contains c s = true -> is_ascii c = true ∧ word_ascii c || others c = true.

End Names.


(** ** Sample sites

    Worlds given by a table, for the examples below: the body of a page is
    the list of its [href]s, all absolute, and URLs have the shape
    [scheme://netloc/path?query#fragment]. *)

Module Sample.

(** The text after the first [://]. *)
Fixpoint after_slashes (s : string) : option string :=
  match s with
  | EmptyString => None
  | String c s' =>
      match s' with
      | String a (String b rest) =>
          if Ascii.eqb c ":" && Ascii.eqb a "/" && Ascii.eqb b "/" then Some rest
          else after_slashes s'
      | _ => None
      end
  end.

(** The text from the first [sep] on, empty when there is none. *)
Fixpoint from_first (sep : ascii) (s : string) : string :=
  match s with
  | EmptyString => EmptyString
  | String c s' => if Ascii.eqb c sep then s else from_first sep s'
  end.

(** [urlparse(url).netloc] on such URLs. *)
Definition netloc_of (url : string) : string :=
  match after_slashes url with
  | Some rest => split_0 "/" (split_0 "?" (split_0 "#" rest))
  | None => ""
  end.

(** [urlparse(url).path] on such URLs. *)
Definition path_of (url : string) : string :=
  match after_slashes url with
  | Some rest => from_first "/" (split_0 "?" (split_0 "#" rest))
  | None => split_0 "?" (split_0 "#" url)
  end.

Fixpoint lookup {A} (table : list (string * A)) (key : string) : option A :=
  match table with
  | [] => None
  | (k, v) :: table => if String.eqb k key then Some v else lookup table key
  end.

(** [urljoin] on absolute [href]s: the [href] itself, and [ValueError]
    ("Invalid IPv6 URL") when one bracket of its host is there without the
    other. *)
Definition urljoin_of (href : string) : option string :=
  let host := netloc_of href in
  if xorb (contains "[" host) (contains "]" host) then None else Some href.

(** The world of a table of pages, [(url, (status, body))], where a body
    is a list of lines: the [href]s of a page, or the chunks of a file. A
    URL is requested without its fragment; one that is not in the table
    does not answer. The disk has room for files of at most [room] lines: a
    longer one is cut there and the write raises. *)
Definition world (pages : list (string * (Z * list string))) (room : nat) : World := {|
  Body := list string;
  session_get url :=
    match lookup pages (split_0 "#" url) with
    | Some (status, body) => Some (mkResponse status body)
    | None => None
    end;
  find_all_a_href body := body;
  urljoin _ href := urljoin_of href;
  netloc := netloc_of;
  path := path_of;
  write_result _ _ body :=
    if (length body <=? room)%nat then Written else WriteRaises (take room body);
  hash _ := 0
|}.

(** A documentation site: [/docs] links to two pages, to two PDFs (one of
    them on another host) and to a page of another host; the pages [a] and
    [b] both link to [c], which links to [d]. *)
Definition docs_site : list (string * (Z * list string)) :=
  [ ("https://ex.com/docs",
     (200, [ "https://ex.com/docs/a"; "https://ex.com/docs/b";
             "https://ex.com/files/guide.pdf"; "https://other.org/paper.PDF";
             "https://other.org/page" ]));
    ("https://ex.com/docs/a", (200, [ "https://ex.com/docs/c#sec"; "https://ex.com/docs" ]));
    ("https://ex.com/docs/b", (200, [ "https://ex.com/docs/c"; "https://ex.com/docs/b.pdf" ]));
    ("https://ex.com/docs/c", (200, [ "https://ex.com/docs/d" ]));
    ("https://ex.com/docs/d", (404, [])) ].

Definition docs_pages : gset string :=
  {[ "https://ex.com/docs"; "https://ex.com/docs/a"; "https://ex.com/docs/b";
     "https://ex.com/docs/c"; "https://ex.com/docs/d" ]}.

(** Two pages: the root links to [/about]. *)
Definition two_pages : list (string * (Z * list string)) :=
  [ ("https://ex.com/", (200, [ "https://ex.com/about" ]));
    ("https://ex.com/about", (200, [])) ].

(** One page with a link to its own top. *)
Definition self_link : list (string * (Z * list string)) :=
  [ ("https://ex.com/docs", (200, [ "https://ex.com/docs#top" ])) ].

(** A start URL that is gone: the server answers 404 with an error page
    that links to the terms of use. *)
Definition gone_root : list (string * (Z * list string)) :=
  [ ("https://ex.com/docs", (404, [ "https://ex.com/terms.pdf" ])) ].

(** A page with a link to a page that does not answer, before a link to a
    page that holds a PDF. *)
Definition dead_link : list (string * (Z * list string)) :=
  [ ("https://ex.com/docs", (200, [ "https://ex.com/docs/gone"; "https://ex.com/docs/a" ]));
    ("https://ex.com/docs/a", (200, [ "https://ex.com/docs/a.pdf" ])) ].

(** A site with a link that [urljoin] cannot split: the page [a], linked
    from the start page, holds it between two PDFs and between the links
    to the pages [b] and [c]. *)
Definition broken_link : list (string * (Z * list string)) :=
  [ ("https://ex.com/docs", (200, [ "https://ex.com/docs/a"; "https://ex.com/docs/index.pdf" ]));
    ("https://ex.com/docs/a",
     (200, [ "https://ex.com/docs/first.pdf"; "https://ex.com/docs/b"; "http://[bad";
             "https://ex.com/docs/c"; "https://ex.com/docs/second.pdf" ]));
    ("https://ex.com/docs/b", (200, []));
    ("https://ex.com/docs/c", (200, [ "https://ex.com/docs/c.pdf" ])) ].

(** Two reports with the same file name on two hosts, the second too long
    for the disk, and a third file. *)
Definition two_reports : list (string * (Z * list string)) :=
  [ ("https://a.org/2023/report.pdf", (200, [ "first report" ]));
    ("https://b.org/2024/report.pdf", (200, [ "second report"; "appendix" ]));
    ("https://c.org/notes.pdf", (200, [ "notes" ])) ].

(** A crawler that has found the three files. *)
Definition reports_crawler : PDFCrawler :=
  mkPDFCrawler "https://a.org/" "a.org" 1 {[ "https://a.org/" ]}
    {[ "https://a.org/2023/report.pdf"; "https://b.org/2024/report.pdf";
       "https://c.org/notes.pdf" ]}
    [ "https://a.org/" ].

Definition docs_world : World := world docs_site 1.
Definition two_pages_world : World := world two_pages 1.
Definition self_link_world : World := world self_link 1.
Definition gone_root_world : World := world gone_root 1.
Definition dead_link_world : World := world dead_link 1.
Definition broken_link_world : World := world broken_link 1.
Definition two_reports_world : World := world two_reports 1.

End Sample.

(** * Properties *)

(** Both directions of an equivalence between disjunctions of
    conjunctions, by cases. *)
Ltac iff_cases :=
  split; intros;
  repeat match goal with
         | H : _ ∨ _ |- _ => destruct H
         | H : _ ∧ _ |- _ => destruct H
         end;
  subst; first [tauto | congruence].

(** Membership of a literal in a literal set, and cases over the members
    of a literal list. *)
Ltac in_literal_set :=
  match goal with |- ?P => apply (bool_decide_unpack P); vm_compute; exact I end.

Ltac literal_list_absurd H :=
  repeat (apply elem_of_cons in H as [H|H]; [discriminate H|]); by apply elem_of_nil in H.

Ltac literal_list_cases H :=
  repeat (apply elem_of_cons in H as [->|H]); [..|by apply elem_of_nil in H].

(** ** Suffixes *)

Lemma append_nil (s : string) : "" +:+ s = s.
Proof. reflexivity. Qed.

Lemma append_cons (c : ascii) (s t : string) : String c s +:+ t = String c (s +:+ t).
Proof. reflexivity. Qed.

Lemma endswith_unfold (s suffix : string) :
  endswith s suffix =
  if String.eqb s suffix then true
  else match s with
       | EmptyString => false
       | String _ s' => endswith s' suffix
       end.
Proof. by destruct s. Qed.

(** [endswith] is the suffix test. *)
Lemma endswith_spec (s suffix : string) :
  endswith s suffix = true ↔ ∃ prefix, s = prefix +:+ suffix.
Proof.
  induction s as [|c s IH]; rewrite endswith_unfold.
  - destruct (String.eqb_spec "" suffix) as [<-|Hne].
    + split; [|done]. by exists "".
    + split; [done|]. intros [[|? ?] Hp]; [|done]. by rewrite append_nil in Hp.
  - destruct (String.eqb_spec (String c s) suffix) as [<-|Hne].
    + split; [|done]. by exists "".
    + rewrite IH. split.
      * intros [prefix ->]. by exists (String c prefix).
      * intros [[|c' prefix] Hp].
        -- by rewrite append_nil in Hp.
        -- rewrite append_cons in Hp. injection Hp as _ ->. by exists prefix.
Qed.

Lemma lower_append (s t : string) : lower (s +:+ t) = lower s +:+ lower t.
Proof. induction s as [|c s IH]; [done|]. rewrite !append_cons. simpl. by rewrite IH. Qed.

(** A text that holds a question mark is not [.pdf]. *)
Lemma question_mark_not_pdf (s t : string) : s +:+ String "?" t ≠ ".pdf".
Proof.
  destruct s as [|c1 [|c2 [|c3 [|c4 s]]]]; rewrite ?append_cons, ?append_nil; try discriminate.
  intros [= _ _ _ _ H]. destruct s; discriminate.
Qed.

(** Behind a question mark only the text after it decides the suffix
    test. *)
Lemma endswith_after_question_mark (s t : string) :
  endswith (s +:+ String "?" t) ".pdf" = endswith t ".pdf".
Proof.
  induction s as [|c s IH].
  - rewrite append_nil, endswith_unfold. reflexivity.
  - rewrite append_cons, endswith_unfold.
    destruct (String.eqb_spec (String c (s +:+ String "?" t)) ".pdf") as [Heq|_]; [|exact IH].
    exfalso. by apply (question_mark_not_pdf (String c s) t).
Qed.

(** Cutting at the first [#] forgets whatever fragment was appended. *)
Lemma split_0_fragment (s fragment : string) :
  split_0 "#" (s +:+ String "#" fragment) = split_0 "#" s.
Proof.
  induction s as [|c s IH].
  - reflexivity.
  - rewrite append_cons. simpl. by rewrite IH.
Qed.

(** Cutting twice is cutting once. *)
Lemma split_0_idem (c : ascii) (s : string) : split_0 c (split_0 c s) = split_0 c s.
Proof.
  induction s as [|a s IH]; [done|]. simpl.
  destruct (Ascii.eqb a c) eqn:Hac; [done|]. simpl. by rewrite Hac, IH.
Qed.

Lemma fmap_fixed {A} (f : A -> A) (l : list A) : (∀ x, x ∈ l -> f x = x) -> f <$> l = l.
Proof.
  induction l as [|a l IH]; intros Hl; [done|]. csimpl.
  rewrite Hl by (by apply elem_of_cons; left).
  rewrite IH; [done|]. intros x Hx. apply Hl. by apply elem_of_cons; right.
Qed.

(** ** The page loop of [get_page_links] *)

Section CrawlerFacts.
Context {W : World}.


Lemma same_base_refl a : same_base a a.
Proof. by repeat split. Qed.

Lemma same_base_trans a b c : same_base a b -> same_base b c -> same_base a c.
Proof. intros (?&?&?) (?&?&?). repeat split; congruence. Qed.

Lemma is_valid_url_same_base a b url :
  same_base a b -> is_valid_url a url = is_valid_url b url.
Proof. intros (Hu&Hd&_). unfold is_valid_url. by rewrite Hu, Hd. Qed.

Lemma joined_cons_Some url href hrefs full_url :
  urljoin url href = Some full_url ->
  joined url (href :: hrefs) = split_0 "#" full_url :: joined url hrefs ∧
  refuses url (href :: hrefs) = refuses url hrefs.
Proof. intros Hjoin. unfold refuses. simpl. by rewrite Hjoin. Qed.

Lemma joined_cons_None url href hrefs :
  urljoin url href = None ->
  joined url (href :: hrefs) = [] ∧ refuses url (href :: hrefs) = true.
Proof. intros Hjoin. unfold refuses. simpl. by rewrite Hjoin. Qed.

Lemma joined_no_fragment url hrefs x : x ∈ joined url hrefs -> split_0 "#" x = x.
Proof.
  induction hrefs as [|href hrefs IH]; [by intros ?%elem_of_nil|].
  destruct (urljoin url href) as [full_url|] eqn:Hjoin.
  - destruct (joined_cons_Some url href hrefs full_url Hjoin) as [-> _].
    intros [->|Hx]%elem_of_cons; [apply split_0_idem|by apply IH].
  - destruct (joined_cons_None url href hrefs Hjoin) as [-> _]. by intros ?%elem_of_nil.
Qed.


Lemma page_links_spec url hrefs links self :
  let r := page_links url (links, self) hrefs in
  same_base r.2 self ∧
  visited_urls r.2 = visited_urls self ∧
  get_log r.2 = get_log self ∧
  (∀ x, x ∈ r.1 ↔
        refuses url hrefs = false ∧
        (x ∈ links ∨ x ∈ joined url hrefs ∧ is_pdf x = false ∧ is_valid_url self x = true)) ∧
  (∀ x, x ∈ pdf_urls r.2 ↔ x ∈ pdf_urls self ∨ x ∈ joined url hrefs ∧ is_pdf x = true).
Proof.
  revert links self.
  induction hrefs as [|href hrefs IH]; intros links self r.
  - subst r. simpl. split; [apply same_base_refl|]. repeat split; try tauto.
    + intros (_ & [?|[H _]]); [done|]. by apply elem_of_nil in H.
    + intros [?|[H _]]; [done|]. by apply elem_of_nil in H.
  - subst r. change (page_links url (links, self) (href :: hrefs))
      with (match page_link url (links, self) href with
            | None => (∅, self)
            | Some acc => page_links url acc hrefs
            end).
    unfold page_link. destruct (urljoin url href) as [full_url|] eqn:Hjoin.
    2: { destruct (joined_cons_None url href hrefs Hjoin) as [-> ->]. simpl.
         split; [apply same_base_refl|]. split; [done|]. split; [done|]. split.
         - intros x. split; [by intros ?%elem_of_empty|]. by intros [? _].
         - intros x. split; [tauto|]. intros [?|[H _]]; [done|]. by apply elem_of_nil in H. }
    destruct (joined_cons_Some url href hrefs full_url Hjoin) as [-> ->].
    set (target := split_0 "#" full_url).
    destruct (is_pdf target) eqn:Hpdf.
    + specialize (IH links (set_pdf_urls self ({[target]} ∪ pdf_urls self))).
      simpl in IH. destruct IH as (Hb & Hv & Hl & Hlinks & Hpdfs).
      split; [exact Hb|]. split; [exact Hv|]. split; [exact Hl|]. split.
      * intros x. rewrite Hlinks, elem_of_cons.
        change (is_valid_url (set_pdf_urls self _) x) with (is_valid_url self x).
        iff_cases.
      * intros x. rewrite Hpdfs, elem_of_cons. simpl.
        rewrite elem_of_union, elem_of_singleton. iff_cases.
    + destruct (is_valid_url self target) eqn:Hvalid.
      * specialize (IH ({[target]} ∪ links) self).
        simpl in IH. destruct IH as (Hb & Hv & Hl & Hlinks & Hpdfs).
        split; [exact Hb|]. split; [exact Hv|]. split; [exact Hl|]. split.
        -- intros x. rewrite Hlinks, elem_of_cons.
           rewrite elem_of_union, elem_of_singleton. iff_cases.
        -- intros x. rewrite Hpdfs, elem_of_cons. iff_cases.
      * specialize (IH links self).
        simpl in IH. destruct IH as (Hb & Hv & Hl & Hlinks & Hpdfs).
        split; [exact Hb|]. split; [exact Hv|]. split; [exact Hl|]. split.
        -- intros x. rewrite Hlinks, elem_of_cons. iff_cases.
        -- intros x. rewrite Hpdfs, elem_of_cons. iff_cases.
Qed.

Lemma crawl_links_targets url x : x ∈ crawl_links url -> x ∈ crawl_targets url.
Proof.
  unfold crawl_links. destruct (session_get url) as [response|]; [|by intros ?%elem_of_nil].
  destruct (refuses url _); [by intros ?%elem_of_nil|done].
Qed.

(** What one call of [get_page_links] returns and leaves in [self]. *)
Lemma get_page_links_spec self url :
  let r := get_page_links self url in
  same_base r.2 self ∧
  visited_urls r.2 = visited_urls self ∧
  get_log r.2 = get_log self ++ [url] ∧
  (∀ x, x ∈ r.1 ↔ x ∈ crawl_links url ∧ is_pdf x = false ∧ is_valid_url self x = true) ∧
  (∀ x, x ∈ pdf_urls r.2 ↔ x ∈ pdf_urls self ∨ x ∈ crawl_targets url ∧ is_pdf x = true).
Proof.
  unfold get_page_links, crawl_links, crawl_targets.
  destruct (session_get url) as [response|]; [destruct (raises_for_status response)|].
  2: { pose proof (page_links_spec url (find_all_a_href (content response)) ∅ (log_get self url))
         as (Hb & Hv & Hl & Hlinks & Hpdfs).
       simpl. split; [exact Hb|]. split; [exact Hv|]. split; [exact Hl|]. split.
       - intros x. rewrite Hlinks, elem_of_empty.
         change (is_valid_url (log_get self url) x) with (is_valid_url self x).
         destruct (refuses url _).
         + split; [by intros [? _]|]. by intros [?%elem_of_nil _].
         + tauto.
       - intros x. rewrite Hpdfs. simpl. tauto. }
  - simpl. split; [by repeat split|]. split; [done|]. split; [done|]. split.
    + intros x. split; [by intros ?%elem_of_empty|].
      intros [H _]. destruct (refuses url _); by apply elem_of_nil in H.
    + intros x. split; [tauto|]. intros [?|[H _]]; [done|]. by apply elem_of_nil in H.
  - simpl. split; [by repeat split|]. split; [done|]. split; [done|]. split.
    + intros x. split; [by intros ?%elem_of_empty|]. by intros [?%elem_of_nil _].
    + intros x. split; [tauto|]. intros [?|[H _]]; [done|]. by apply elem_of_nil in H.
Qed.

Lemma get_page_links_same_base a b url :
  same_base a b -> (get_page_links a url).1 = (get_page_links b url).1.
Proof.
  intros Hab. apply set_eq. intros x.
  destruct (get_page_links_spec a url) as (_&_&_&Ha&_).
  destruct (get_page_links_spec b url) as (_&_&_&Hb&_).
  rewrite Ha, Hb. by rewrite (is_valid_url_same_base a b).
Qed.

(** ** One turn of the loop of [crawl] *)

Lemma set_visited_urls_id self : set_visited_urls self (visited_urls self) = self.
Proof. by destruct self. Qed.

(** The [for link in links] loop appends the links that are not yet in
    [visited_urls], each once, and marks them visited. *)
Lemma enqueue_fold depth ls :
  NoDup ls ->
  ∀ self queue, ∃ new,
    NoDup new ∧
    (∀ x, x ∈ new ↔ x ∈ ls ∧ x ∉ visited_urls self) ∧
    foldl (enqueue_link depth) (self, queue) ls =
      (set_visited_urls self (list_to_set new ∪ visited_urls self),
       queue ++ ((λ l, (l, depth + 1)) <$> new)).
Proof.
  induction 1 as [|l ls Hl Hnd IH]; intros self queue.
  - exists []. split; [constructor|]. split; [set_solver|].
    simpl. rewrite (left_id_L ∅ (∪)), set_visited_urls_id, app_nil_r. done.
  - simpl foldl.
    destruct (decide (l ∈ visited_urls self)) as [Hin|Hout].
    + destruct (IH self queue) as (new & Hnew & Hmem & Heq).
      exists new. split; [done|]. split; [|done].
      intros x. rewrite Hmem, elem_of_cons. split; [tauto|].
      intros [[->|?] ?]; tauto.
    + destruct (IH (set_visited_urls self ({[l]} ∪ visited_urls self))
                  (queue ++ [(l, depth + 1)])) as (new & Hnew & Hmem & Heq).
      simpl in Hmem. exists (l :: new). split; [|split].
      * constructor; [|done]. rewrite Hmem. set_solver.
      * intros x. rewrite !elem_of_cons, Hmem. set_solver.
      * rewrite Heq. simpl. f_equal.
        -- unfold set_visited_urls; simpl. f_equal. set_solver.
        -- by rewrite <- app_assoc.
Qed.

Lemma crawl_iteration_spec self queue self' queue' :
  crawl_iteration self queue = Some (self', queue') ->
  ∃ url depth rest, queue = (url, depth) :: rest ∧
    ((max_depth self < depth ∧ self' = self ∧ queue' = rest) ∨
     (depth <= max_depth self ∧ ∃ new,
        same_base self' self ∧
        get_log self' = get_log self ++ [url] ∧
        (∀ x, x ∈ pdf_urls self' ↔
              x ∈ pdf_urls self ∨ x ∈ crawl_targets url ∧ is_pdf x = true) ∧
        NoDup new ∧
        (∀ x, x ∈ new ↔ x ∈ (get_page_links self url).1 ∧ x ∉ visited_urls self) ∧
        visited_urls self' = list_to_set new ∪ visited_urls self ∧
        queue' = rest ++ ((λ l, (l, depth + 1)) <$> new))).
Proof.
  unfold crawl_iteration. destruct queue as [|[url depth] rest]; [done|].
  intros H. exists url, depth, rest. split; [done|].
  destruct (Z.ltb_spec (max_depth self) depth) as [Hlt|Hle].
  - left. by simplify_eq.
  - right. split; [done|].
    pose proof (get_page_links_spec self url) as (Hb & Hv & Hl & Hlinks & Hpdfs).
    destruct (get_page_links self url) as [links self1]; simpl in *.
    destruct (enqueue_fold depth (elements links) (NoDup_elements links) self1 rest)
      as (new & Hnew & Hmem & Heq).
    rewrite Heq in H. simplify_eq. exists new. simpl.
    split; [exact Hb|]. split; [exact Hl|]. split; [exact Hpdfs|].
    split; [exact Hnew|]. split; [|split].
    + intros x. rewrite Hmem, elem_of_elements, Hv. done.
    + by rewrite Hv.
    + done.
Qed.

(** ** Invariants of the loop of [crawl] *)

(** Induction over the states of the loop, by the two ways a turn goes:
    the depth guard skips the pair, or the page is fetched. *)
Lemma crawl_reaches_cases self0 (P : PDFCrawler -> Queue -> Prop) :
  P (crawl_start self0).1 (crawl_start self0).2 ->
  (∀ self url depth rest,
      P self ((url, depth) :: rest) -> max_depth self < depth -> P self rest) ->
  (∀ self self' url depth rest new,
      P self ((url, depth) :: rest) ->
      depth <= max_depth self ->
      same_base self' self ->
      get_log self' = get_log self ++ [url] ->
      (∀ x, x ∈ pdf_urls self' ↔
            x ∈ pdf_urls self ∨ x ∈ crawl_targets url ∧ is_pdf x = true) ->
      NoDup new ->
      (∀ x, x ∈ new ↔ x ∈ (get_page_links self url).1 ∧ x ∉ visited_urls self) ->
      visited_urls self' = list_to_set new ∪ visited_urls self ->
      P self' (rest ++ ((λ l, (l, depth + 1)) <$> new))) ->
  ∀ self queue, crawl_reaches self0 self queue -> P self queue.
Proof.
  intros Hstart Hskip Hfetch self queue Hr.
  induction Hr as [|self queue self' queue' _ IH Hit]; [done|].
  apply crawl_iteration_spec in Hit as (url & depth & rest & -> & Hcase).
  destruct Hcase as [(Hlt & -> & ->)|(Hle & new & Hb & Hl & Hp & Hnd & Hm & Hv & ->)].
  - by eapply Hskip.
  - by eapply Hfetch.
Qed.

Lemma fst_enqueued (d : Z) (new : list string) : ((λ l, (l, d)) <$> new).*1 = new.
Proof. induction new as [|x new IH]; csimpl; [done|]. by rewrite IH. Qed.

Lemma inv_base self0 self queue :
  crawl_reaches self0 self queue -> same_base self self0.
Proof.
  revert self queue. apply crawl_reaches_cases.
  - by repeat split.
  - done.
  - intros self self' url depth rest new IH _ Hb _ _ _ _ _.
    by eapply same_base_trans.
Qed.

(** Every URL of the frontier and every URL fetched is in [visited_urls],
    and no URL stands twice in the fetch log followed by the frontier. *)
Lemma inv_visited b m self queue :
  crawl_reaches (PDFCrawler_init b m) self queue ->
  b ∈ visited_urls self ∧
  (∀ u, u ∈ queue.*1 -> u ∈ visited_urls self) ∧
  (∀ u, u ∈ get_log self -> u ∈ visited_urls self) ∧
  NoDup (get_log self ++ queue.*1).
Proof.
  revert self queue. apply crawl_reaches_cases.
  - simpl. split; [set_solver|]. split; [set_solver|]. split; [set_solver|].
    apply NoDup_singleton.
  - intros self url depth rest (Hb & Hq & Hl & Hnd) _.
    split; [done|]. split; [|split; [done|]].
    + intros u Hu. apply Hq. rewrite fmap_cons. by apply elem_of_cons; right.
    + rewrite fmap_cons in Hnd. apply NoDup_app in Hnd as (H1 & H2 & H3).
      apply NoDup_app. split; [done|]. split.
      * intros x Hx Hx'. apply (H2 x Hx). by apply elem_of_cons; right.
      * by apply NoDup_cons in H3 as [_ ?].
  - intros self self' url depth rest new (Hb & Hq & Hl & Hnd) _ _ Hlog _ Hnew Hmem Hv.
    rewrite Hv, Hlog, fmap_app, fst_enqueued.
    rewrite fmap_cons in Hq, Hnd. simpl in Hq, Hnd.
    apply NoDup_app in Hnd as (H1 & H2 & H3).
    apply NoDup_cons in H3 as [H3 H4].
    split; [set_solver|]. split; [|split].
    + intros u [Hu|Hu]%elem_of_app; [|set_solver].
      apply elem_of_union; right. apply Hq. by apply elem_of_cons; right.
    + intros u [Hu|Hu]%elem_of_app.
      * apply elem_of_union; right. by apply Hl.
      * apply list_elem_of_singleton in Hu as ->.
        apply elem_of_union; right. apply Hq. by apply elem_of_cons; left.
    + rewrite <- app_assoc. simpl. apply NoDup_app. split; [done|]. split.
      * intros x Hx Hx'. apply (H2 x Hx).
        apply elem_of_cons in Hx' as [->|Hx']; [by apply elem_of_cons; left|].
        apply elem_of_app in Hx' as [Hx'|Hx']; [by apply elem_of_cons; right|].
        apply Hmem in Hx' as [_ Hx']. exfalso. apply Hx'. by apply Hl.
      * apply NoDup_cons. split.
        -- intros [Hx|Hx]%elem_of_app; [done|].
           apply Hmem in Hx as [_ Hx]. apply Hx. apply Hq. by apply elem_of_cons; left.
        -- apply NoDup_app. split; [done|]. split; [|done].
           intros x Hx Hx'. apply Hmem in Hx' as [_ Hx']. apply Hx'.
           apply Hq. by apply elem_of_cons; right.
Qed.

(** Every pair of the frontier carries the length of a chain of links that
    leads to its URL, and every URL fetched has such a chain of at most
    [max_depth] links. *)
Lemma inv_chain b m self queue :
  crawl_reaches (PDFCrawler_init b m) self queue ->
  (∀ u d, (u, d) ∈ queue -> 0 <= d ∧ link_chain (PDFCrawler_init b m) (Z.to_nat d) u) ∧
  (∀ u, u ∈ get_log self ->
        ∃ d : nat, Z.of_nat d <= m ∧ link_chain (PDFCrawler_init b m) d u).
Proof.
  intros Hr. pose proof (inv_base _ _ _ Hr) as Hbase. revert self queue Hr Hbase.
  set (self0 := PDFCrawler_init b m).
  refine (crawl_reaches_cases self0
            (λ self queue, same_base self self0 -> _ ∧ _) _ _ _).
  - intros _. simpl. split.
    + intros u d [= -> ->]%list_elem_of_singleton. split; [done|]. apply chain_root.
    + intros u Hu. by apply elem_of_nil in Hu.
  - intros self url depth rest IH _ Hb. destruct (IH Hb) as [Hq Hl].
    split; [|done]. intros u d Hu. apply Hq. by apply elem_of_cons; right.
  - intros self self' url depth rest new IH Hle Hb' Hlog _ _ Hmem _ Hb.
    assert (same_base self self0) as Hbs.
    { destruct Hb as (?&?&?), Hb' as (?&?&?). repeat split; congruence. }
    destruct (IH Hbs) as [Hq Hl].
    destruct (Hq url depth) as [Hd Hchain]; [by apply elem_of_cons; left|].
    split.
    + intros u d [Hu|Hu]%elem_of_app.
      * apply Hq. by apply elem_of_cons; right.
      * apply list_elem_of_fmap in Hu as (x & [= -> ->] & Hx).
        split; [lia|]. replace (Z.to_nat (depth + 1)) with (S (Z.to_nat depth)) by lia.
        apply chain_link with url; [done|].
        apply Hmem in Hx as [Hx _].
        by rewrite <- (get_page_links_same_base self self0).
    + intros u. rewrite Hlog. intros [Hu|Hu]%elem_of_app; [by apply Hl|].
      apply list_elem_of_singleton in Hu as ->.
      exists (Z.to_nat depth). split; [|done].
      destruct Hbs as (_&_&Hm). simpl in Hm. lia.
Qed.

(** [pdf_urls] holds the PDF link targets of the pages fetched, and
    nothing else. *)
Lemma inv_pdfs b m self queue :
  crawl_reaches (PDFCrawler_init b m) self queue ->
  ∀ x, x ∈ pdf_urls self ↔
       ∃ url, url ∈ get_log self ∧ x ∈ crawl_targets url ∧ is_pdf x = true.
Proof.
  revert self queue.
  apply (crawl_reaches_cases _ (λ self _, ∀ x, x ∈ pdf_urls self ↔
           ∃ url, url ∈ get_log self ∧ x ∈ crawl_targets url ∧ is_pdf x = true)).
  - simpl. intros x. split; [set_solver|]. intros (url & Hu & _). by apply elem_of_nil in Hu.
  - done.
  - intros self self' url depth rest new IH _ _ Hlog Hp _ _ _ x.
    rewrite Hp, IH, Hlog. split.
    + intros [(u & Hu & ?)|[? ?]].
      * exists u. split; [|done]. apply elem_of_app. by left.
      * exists url. split; [|done]. apply elem_of_app. right. by apply list_elem_of_singleton.
    + intros (u & [Hu| ->%list_elem_of_singleton]%elem_of_app & ?); [|by right].
      left. by exists u.
Qed.

(** ** The loop of [crawl] and its fuel *)

Lemma crawl_iteration_None self queue : crawl_iteration self queue = None ↔ queue = [].
Proof.
  unfold crawl_iteration. destruct queue as [|[url depth] rest]; [done|].
  split; [|done]. destruct (max_depth self <? depth); [done|].
  by destruct (get_page_links self url).
Qed.

Lemma crawl_loop_reaches self0 fuel :
  ∀ self queue self',
    crawl_reaches self0 self queue ->
    crawl_loop fuel self queue = Some self' ->
    crawl_reaches self0 self' [].
Proof.
  induction fuel as [|fuel IH]; intros self queue self' Hr Hloop; [done|].
  simpl in Hloop. destruct (crawl_iteration self queue) as [[self1 queue1]|] eqn:Hit.
  - eapply IH; [|exact Hloop]. by eapply reaches_turn.
  - apply crawl_iteration_None in Hit as ->. by simplify_eq.
Qed.

Lemma crawl_final self0 fuel self' :
  crawl fuel self0 = Some self' -> crawl_reaches self0 self' [].
Proof.
  unfold crawl. destruct (crawl_start self0) as [self queue] eqn:Hs.
  intros Hloop. eapply crawl_loop_reaches; [|exact Hloop].
  pose proof (reaches_start self0) as Hr. by rewrite Hs in Hr.
Qed.

(** More fuel does not change the result. *)
Lemma crawl_loop_more fuel :
  ∀ fuel' self queue self',
    crawl_loop fuel self queue = Some self' -> (fuel <= fuel')%nat ->
    crawl_loop fuel' self queue = Some self'.
Proof.
  induction fuel as [|fuel IH]; intros fuel' self queue self' Hloop Hle; [done|].
  destruct fuel' as [|fuel']; [lia|]. simpl in *.
  destruct (crawl_iteration self queue) as [[self1 queue1]|]; [|done].
  apply IH; [done|lia].
Qed.

Lemma crawl_deterministic fuel1 fuel2 self0 self1 self2 :
  crawl fuel1 self0 = Some self1 -> crawl fuel2 self0 = Some self2 -> self1 = self2.
Proof.
  unfold crawl. destruct (crawl_start self0) as [self queue]. intros H1 H2.
  apply (crawl_loop_more _ (fuel1 `max` fuel2)) in H1; [|lia].
  apply (crawl_loop_more _ (fuel1 `max` fuel2)) in H2; [|lia].
  congruence.
Qed.

(** *** Termination on a finite site *)

Lemma crawl_targets_page_targets url x : x ∈ crawl_targets url -> x ∈ page_targets url.
Proof.
  unfold crawl_targets, page_targets. destruct (session_get url) as [r|]; [|done].
  destruct (raises_for_status r); [|done]. by intros ?%elem_of_nil.
Qed.

Lemma page_targets_fragment_free url x : x ∈ page_targets url -> split_0 "#" x = x.
Proof.
  unfold page_targets. destruct (session_get url) as [response|]; [|by intros ?%elem_of_nil].
  apply joined_no_fragment.
Qed.

Lemma is_valid_url_in_scope b m self url :
  same_base self (PDFCrawler_init b m) -> is_valid_url self url = in_scope b url.
Proof.
  intros (Hu & Hd & _). simpl in *. unfold is_valid_url, in_scope. rewrite Hu, Hd.
  destruct (String.eqb (netloc url) (netloc b)); simpl; [|done].
  by destruct (startswith (path url) (path b)).
Qed.

(** Every URL marked is the start URL or carries no fragment. *)
Lemma inv_no_fragment b m self queue :
  crawl_reaches (PDFCrawler_init b m) self queue ->
  ∀ u, u ∈ visited_urls self -> u = b ∨ split_0 "#" u = u.
Proof.
  revert self queue.
  apply (crawl_reaches_cases _ (λ self _, ∀ u, u ∈ visited_urls self ->
                                             u = b ∨ split_0 "#" u = u)).
  - simpl. intros u Hu. left. set_solver.
  - done.
  - intros self self' url depth rest new IH _ _ _ _ _ Hmem Hv u. rewrite Hv.
    intros [Hu|Hu]%elem_of_union; [|by apply IH]. right.
    apply elem_of_list_to_set in Hu. apply Hmem in Hu as [Hu _].
    destruct (get_page_links_spec self url) as (_&_&_&Hlinks&_).
    apply Hlinks in Hu as (Ht & _).
    by apply crawl_links_targets, crawl_targets_page_targets, page_targets_fragment_free in Ht.
Qed.

Lemma inv_pages b m pages self queue :
  finite_site b pages ->
  crawl_reaches (PDFCrawler_init b m) self queue ->
  visited_urls self ⊆ pages ∧ ∀ u, u ∈ queue.*1 -> u ∈ pages.
Proof.
  intros [Hb Hclosed] Hr.
  pose proof (inv_base _ _ _ Hr) as Hbase. revert self queue Hr Hbase.
  refine (crawl_reaches_cases (PDFCrawler_init b m)
            (λ self queue, same_base self _ -> _ ∧ _) _ _ _).
  - intros _. simpl. set_solver.
  - intros self url depth rest IH _ Hbase. destruct (IH Hbase) as [Hv Hq].
    split; [done|]. intros u Hu. apply Hq. rewrite fmap_cons. by apply elem_of_cons; right.
  - intros self self' url depth rest new IH _ Hb' _ _ _ Hmem Hv Hbase.
    assert (same_base self (PDFCrawler_init b m)) as Hbs.
    { destruct Hbase as (?&?&?), Hb' as (?&?&?). repeat split; congruence. }
    destruct (IH Hbs) as [Hvis Hq].
    assert (∀ x, x ∈ new -> x ∈ pages) as Hnew.
    { intros x [Hx _]%Hmem.
      destruct (get_page_links_spec self url) as (_&_&_&Hlinks&_).
      apply Hlinks in Hx as (Ht & Hpdf & Hvalid).
      apply (Hclosed url x); [|by apply crawl_targets_page_targets, crawl_links_targets|done|].
      - apply Hq. rewrite fmap_cons. by apply elem_of_cons; left.
      - by rewrite <- (is_valid_url_in_scope b m self). }
    split.
    + rewrite Hv. intros x [Hx|Hx]%elem_of_union; [|by apply Hvis].
      apply Hnew. by apply elem_of_list_to_set in Hx.
    + intros u. rewrite fmap_app, fst_enqueued. intros [Hu|Hu]%elem_of_app; [|by apply Hnew].
      apply Hq. rewrite fmap_cons. by apply elem_of_cons; right.
Qed.


Lemma size_difference_new (pages visited : gset string) (new : list string) :
  NoDup new -> (∀ x, x ∈ new -> x ∈ pages ∧ x ∉ visited) ->
  (size (pages ∖ (list_to_set new ∪ visited)) + length new)%nat = size (pages ∖ visited).
Proof.
  intros Hnd Hnew.
  assert (pages ∖ visited = list_to_set new ∪ pages ∖ (list_to_set new ∪ visited)) as Heq.
  { apply set_eq. intros x.
    rewrite elem_of_union, !elem_of_difference, elem_of_union, elem_of_list_to_set.
    destruct (decide (x ∈ new)) as [Hx|Hx]; [|tauto].
    destruct (Hnew x Hx). tauto. }
  rewrite Heq.
  rewrite (size_union (C:=gset string) (list_to_set new)) by set_solver.
  rewrite (size_list_to_set (C:=gset string)) by done. lia.
Qed.

(** A turn of the loop leaves strictly less to do. *)
Lemma crawl_measure_decreases b m pages self queue self' queue' :
  finite_site b pages ->
  crawl_reaches (PDFCrawler_init b m) self queue ->
  crawl_iteration self queue = Some (self', queue') ->
  (crawl_measure pages self' queue' < crawl_measure pages self queue)%nat.
Proof.
  intros Hsite Hr Hit. unfold crawl_measure.
  assert (crawl_reaches (PDFCrawler_init b m) self' queue') as Hr' by (by eapply reaches_turn).
  destruct (inv_pages _ _ _ _ _ Hsite Hr') as [_ Hq'].
  apply crawl_iteration_spec in Hit as (url & depth & rest & -> & Hcase).
  destruct Hcase as [(Hlt & -> & ->)|(Hle & new & _ & _ & _ & Hnd & Hm & Hv & ->)].
  - simpl. lia.
  - rewrite Hv, length_app, length_fmap. simpl.
    pose proof (size_difference_new pages (visited_urls self) new Hnd) as Hsize.
    rewrite <- Hsize; [lia|].
    intros x Hx. split; [|by apply Hm in Hx as [_ ?]].
    apply Hq'. rewrite fmap_app, fst_enqueued. apply elem_of_app. by right.
Qed.

Lemma crawl_loop_total b m pages fuel :
  finite_site b pages ->
  ∀ self queue,
    crawl_reaches (PDFCrawler_init b m) self queue ->
    (crawl_measure pages self queue < fuel)%nat ->
    ∃ self', crawl_loop fuel self queue = Some self'.
Proof.
  intros Hsite. induction fuel as [|fuel IH]; intros self queue Hr Hlt; [lia|].
  simpl. destruct (crawl_iteration self queue) as [[self1 queue1]|] eqn:Hit; [|by eexists].
  apply IH; [by eapply reaches_turn|].
  pose proof (crawl_measure_decreases _ _ _ _ _ _ _ Hsite Hr Hit). lia.
Qed.

Lemma crawl_total b m pages fuel :
  finite_site b pages -> (size pages < fuel)%nat ->
  ∃ self', crawl fuel (PDFCrawler_init b m) = Some self'.
Proof.
  intros Hsite Hfuel. unfold crawl.
  pose proof (reaches_start (PDFCrawler_init b m)) as Hr.
  destruct (crawl_start (PDFCrawler_init b m)) as [self queue] eqn:Hs.
  apply (crawl_loop_total b m pages); [done..|].
  unfold crawl_start in Hs. simpl in Hs. simplify_eq. unfold crawl_measure. simpl.
  destruct Hsite as [Hb _].
  pose proof (size_difference_new pages ∅ [b]) as Hsize. simpl in Hsize.
  rewrite (right_id_L ∅ (∪)) in Hsize. rewrite (right_id_L ∅ (∪)).
  rewrite (right_id_L ∅ (∪)) in Hsize.
  rewrite Hsize; [|apply NoDup_singleton|set_solver].
  rewrite difference_empty_L. lia.
Qed.

(** *** The depth guard *)

Lemma inv_depth b m self queue :
  0 <= m ->
  crawl_reaches (PDFCrawler_init b m) self queue ->
  ∀ u d, (u, d) ∈ queue -> 0 <= d <= m + 1.
Proof.
  intros Hm Hr. pose proof (inv_base _ _ _ Hr) as Hbase. revert self queue Hr Hbase.
  refine (crawl_reaches_cases (PDFCrawler_init b m)
            (λ self queue, same_base self _ -> ∀ u d, (u, d) ∈ queue -> 0 <= d <= m + 1) _ _ _).
  - intros _ u d [= -> ->]%list_elem_of_singleton. lia.
  - intros self url depth rest IH _ Hbase u d Hu. apply (IH Hbase u). by apply elem_of_cons; right.
  - intros self self' url depth rest new IH Hle Hb' _ _ _ _ _ Hbase u d.
    assert (same_base self (PDFCrawler_init b m)) as Hbs.
    { destruct Hbase as (?&?&?), Hb' as (?&?&?). repeat split; congruence. }
    intros [Hu|Hu]%elem_of_app.
    + apply (IH Hbs u). by apply elem_of_cons; right.
    + apply list_elem_of_fmap in Hu as (x & [= -> ->] & Hx).
      destruct (IH Hbs url depth) as [H0 _]; [by apply elem_of_cons; left|].
      destruct Hbs as (_&_&Hmax). simpl in Hmax. lia.
Qed.

(** A pair beyond [max_depth] is dropped with nothing else done. *)
Lemma crawl_iteration_skip self url depth rest :
  max_depth self < depth -> crawl_iteration self ((url, depth) :: rest) = Some (self, rest).
Proof. intros H. simpl. by rewrite (proj2 (Z.ltb_lt _ _) H). Qed.

Lemma crawl_loop_skip self queue :
  (∀ u d, (u, d) ∈ queue -> max_depth self < d) ->
  crawl_loop (S (length queue)) self queue = Some self.
Proof.
  induction queue as [|[u d] rest IH]; intros Hall; [done|].
  simpl length. change (crawl_loop (S (S (length rest))) self ((u, d) :: rest))
    with (match crawl_iteration self ((u, d) :: rest) with
          | None => Some self
          | Some (self1, queue1) => crawl_loop (S (length rest)) self1 queue1
          end).
  rewrite crawl_iteration_skip by (apply (Hall u); by apply elem_of_cons; left).
  apply IH. intros u' d' Hu. apply (Hall u'). by apply elem_of_cons; right.
Qed.

(** With [max_depth = 0] the crawl fetches the start URL and nothing
    else, and it needs no more turns than the root page has links. *)
Lemma crawl_depth_0 b :
  ∃ fuel self, crawl fuel (PDFCrawler_init b 0) = Some self ∧ get_log self = [b].
Proof.
  unfold crawl.
  destruct (crawl_start (PDFCrawler_init b 0)) as [self1 queue1] eqn:Hs.
  unfold crawl_start in Hs. simpl in Hs. simplify_eq.
  set (self1 := set_visited_urls _ _).
  destruct (crawl_iteration self1 [(b, 0)]) as [[self2 queue2]|] eqn:Hit.
  2: { by apply crawl_iteration_None in Hit. }
  exists (S (S (length queue2))), self2.
  change (crawl_loop (S (S (length queue2))) self1 [(b, 0)])
    with (match crawl_iteration self1 [(b, 0)] with
          | None => Some self1
          | Some (s, q) => crawl_loop (S (length queue2)) s q
          end).
  rewrite Hit.
  apply crawl_iteration_spec in Hit as (url & depth & rest & [= <- <- <-] & Hcase).
  destruct Hcase as [(Hlt & _)|(_ & new & Hb & Hl & _ & _ & _ & _ & ->)]; [simpl in Hlt; lia|].
  split; [|by rewrite Hl].
  apply crawl_loop_skip. intros u d Hu. simpl in Hu.
  apply list_elem_of_fmap in Hu as (x & [= -> ->] & _).
  destruct Hb as (_&_&->). simpl. lia.
Qed.

(** *** Pairs beyond [max_depth] are marked and never fetched *)

Lemma fst_NoDup_functional {A B} (l : list (A * B)) x y1 y2 :
  NoDup l.*1 -> (x, y1) ∈ l -> (x, y2) ∈ l -> y1 = y2.
Proof.
  induction l as [|[a c] l IH]; csimpl; intros Hnd H1 H2; [by apply elem_of_nil in H1|].
  apply NoDup_cons in Hnd as [Ha Hnd].
  apply elem_of_cons in H1 as [H1|H1]; apply elem_of_cons in H2 as [H2|H2].
  - congruence.
  - exfalso. apply Ha. apply list_elem_of_fmap. exists (x, y2). by simplify_eq.
  - exfalso. apply Ha. apply list_elem_of_fmap. exists (x, y1). by simplify_eq.
  - by apply IH.
Qed.


Lemma never_fetched_turn url self queue self' queue' :
  never_fetched url self queue ->
  crawl_iteration self queue = Some (self', queue') ->
  never_fetched url self' queue'.
Proof.
  intros (Hv & Hl & Hq) Hit.
  apply crawl_iteration_spec in Hit as (u & depth & rest & -> & Hcase).
  destruct Hcase as [(Hlt & -> & ->)|(Hle & new & Hb & Hlog & _ & _ & Hm & Hvis & ->)].
  - split; [done|]. split; [done|]. intros d Hd. apply Hq. by apply elem_of_cons; right.
  - split; [rewrite Hvis; set_solver|]. split.
    + rewrite Hlog. intros [?| ->%list_elem_of_singleton]%elem_of_app; [done|].
      assert (max_depth self < depth) by (apply Hq; by apply elem_of_cons; left). lia.
    + intros d [Hd|Hd]%elem_of_app.
      * destruct Hb as (_&_&->). apply Hq. by apply elem_of_cons; right.
      * apply list_elem_of_fmap in Hd as (x & [= -> ->] & Hx).
        apply Hm in Hx as [_ Hx]. done.
Qed.

Lemma never_fetched_loop url fuel :
  ∀ self queue self',
    never_fetched url self queue ->
    crawl_loop fuel self queue = Some self' ->
    url ∈ visited_urls self' ∧ url ∉ get_log self'.
Proof.
  induction fuel as [|fuel IH]; intros self queue self' Hnf Hloop; [done|].
  simpl in Hloop. destruct (crawl_iteration self queue) as [[self1 queue1]|] eqn:Hit.
  - eapply IH; [|exact Hloop]. by eapply never_fetched_turn.
  - simplify_eq. by destruct Hnf as (?&?&_).
Qed.

End CrawlerFacts.

(** ** [find_all_pdfs] *)

Section FinderFacts.
Context {W : World}.

Lemma scan_links_cons bd bp url vis acc href hrefs :
  scan_links bd bp url vis acc (href :: hrefs)
  = match scan_link bd bp url vis acc href with
    | None => acc
    | Some acc' => scan_links bd bp url vis acc' hrefs
    end.
Proof. reflexivity. Qed.

Lemma scan_link_fold bd bp url vis hrefs :
  ∀ pdfs0 queue0,
    let r := scan_links bd bp url vis (pdfs0, queue0) hrefs in
    (∀ x, x ∈ r.1 ↔ x ∈ pdfs0 ∨ x ∈ joined url hrefs ∧ is_pdf x = true) ∧
    ∃ new, r.2 = queue0 ++ new ∧
      ∀ x, x ∈ new ->
        x ∈ joined url hrefs ∧ is_pdf x = false ∧
        String.eqb (netloc x) bd = true ∧ startswith (path x) bp = true ∧ x ∉ vis.
Proof.
  induction hrefs as [|href hrefs IH]; intros pdfs0 queue0 r.
  - subst r. simpl. split.
    + intros x. rewrite elem_of_nil. tauto.
    + exists []. rewrite app_nil_r. split; [done|]. by intros x ?%elem_of_nil.
  - subst r. rewrite scan_links_cons. unfold scan_link.
    destruct (urljoin url href) as [full_url|] eqn:Hjoin.
    2: { destruct (joined_cons_None url href hrefs Hjoin) as [-> _]. simpl. split.
         - intros x. rewrite elem_of_nil. tauto.
         - exists []. rewrite app_nil_r. split; [done|]. by intros x ?%elem_of_nil. }
    destruct (joined_cons_Some url href hrefs full_url Hjoin) as [-> _].
    set (target := split_0 "#" full_url).
    fold (is_pdf target).
    destruct (is_pdf target) eqn:Hpdf; [|
      destruct (String.eqb (netloc target) bd
                && startswith (path target) bp
                && bool_decide (target ∉ vis)) eqn:Hok].
    + destruct (IH ({[target]} ∪ pdfs0) queue0) as [Hp (new & Hq & Hnew)].
      split.
      * intros x. rewrite Hp, elem_of_cons, elem_of_union, elem_of_singleton.
        iff_cases.
      * exists new. split; [done|]. intros x Hx. rewrite elem_of_cons.
        destruct (Hnew x Hx) as (?&?&?&?&?). tauto.
    + destruct (IH pdfs0 (queue0 ++ [target])) as [Hp (new & Hq & Hnew)].
      split.
      * intros x. rewrite Hp, elem_of_cons. iff_cases.
      * exists (target :: new). split; [etrans; [exact Hq|]; by rewrite <- app_assoc|].
        intros x [->|Hx]%elem_of_cons.
        -- apply andb_true_iff in Hok as [[? ?]%andb_true_iff ?%bool_decide_eq_true].
           rewrite elem_of_cons. tauto.
        -- rewrite elem_of_cons.
           destruct (Hnew x Hx) as (?&?&?&?&?). tauto.
    + destruct (IH pdfs0 queue0) as [Hp (new & Hq & Hnew)].
      split.
      * intros x. rewrite Hp, elem_of_cons. iff_cases.
      * exists new. split; [done|]. intros x Hx. rewrite elem_of_cons.
        destruct (Hnew x Hx) as (?&?&?&?&?). tauto.
Qed.

(** A turn of the loop of [find_all_pdfs]: a URL already visited is
    dropped; another one is marked, requested, and the links of its page
    that are in scope, no PDF and not visited are appended. *)
Lemma scan_iteration_spec b st st' :
  scan_iteration b st = Some st' ->
  ∃ url rest, queue st = url :: rest ∧
    ((url ∈ visited st ∧ st' = mkScan (visited st) (pdfs st) rest (scan_log st)) ∨
     ((url ∉ visited st) ∧
      visited st' = {[url]} ∪ visited st ∧
      scan_log st' = scan_log st ++ [url] ∧
      (∀ x, x ∈ pdfs st' ↔ x ∈ pdfs st ∨ x ∈ page_targets url ∧ is_pdf x = true) ∧
      ∃ new, queue st' = rest ++ new ∧
        ∀ x, x ∈ new ->
          x ∈ page_targets url ∧ is_pdf x = false ∧ in_scope b x = true ∧
          x ∉ ({[url]} ∪ visited st : gset string))).
Proof.
  unfold scan_iteration. destruct (queue st) as [|url rest]; [done|].
  intros H. exists url, rest. split; [done|].
  destruct (decide (url ∈ visited st)) as [Hin|Hout]; [left; by simplify_eq|].
  right. split; [done|]. unfold page_targets.
  destruct (session_get url) as [response|].
  - pose proof (scan_link_fold (netloc b) (path b) url ({[url]} ∪ visited st)
                  (find_all_a_href (content response)) (pdfs st) rest) as Hfold.
    simpl in Hfold.
    destruct (scan_links _ _ _ _ _ _) as [pdfs1 queue1]. simpl in Hfold.
    destruct Hfold as [Hp (new & Hq & Hnew)]. simplify_eq. simpl.
    split; [done|]. split; [done|]. split; [done|].
    exists new. split; [done|]. intros x Hx.
    destruct (Hnew x Hx) as (?&?&?&?&?). unfold in_scope.
    repeat split; try done. by apply andb_true_iff.
  - simplify_eq. simpl. split; [done|]. split; [done|]. split.
    + intros x. rewrite elem_of_nil. tauto.
    + exists []. rewrite app_nil_r. split; [done|]. by intros x ?%elem_of_nil.
Qed.

Lemma scan_iteration_None b st : scan_iteration b st = None ↔ queue st = [].
Proof.
  unfold scan_iteration. destruct (queue st) as [|url rest]; [done|].
  split; [|done]. destruct (decide (url ∈ visited st)); [done|].
  destruct (session_get url); [|done]. by destruct (scan_links _ _ _ _ _ _).
Qed.

Lemma scan_loop_reaches b fuel :
  ∀ st st', scan_reaches b st -> scan_loop fuel b st = Some st' ->
            scan_reaches b st' ∧ queue st' = [].
Proof.
  induction fuel as [|fuel IH]; intros st st' Hr Hloop; [done|].
  simpl in Hloop. destruct (scan_iteration b st) as [st1|] eqn:Hit.
  - eapply IH; [|exact Hloop]. by eapply scan_reaches_turn.
  - apply scan_iteration_None in Hit. by simplify_eq.
Qed.

(** The fetch log lists the visited URLs, each once. *)
Lemma scan_inv_log b st :
  scan_reaches b st ->
  NoDup (scan_log st) ∧ ∀ u, u ∈ scan_log st ↔ u ∈ visited st.
Proof.
  induction 1 as [|st st' _ [Hnd Hlog] Hit].
  - simpl. split; [constructor|]. intros u. rewrite elem_of_nil. set_solver.
  - apply scan_iteration_spec in Hit as (url & rest & Hq & Hcase).
    destruct Hcase as [[Hin ->]|(Hout & Hv & Hl & _)]; [done|].
    rewrite Hl, Hv. split.
    + apply NoDup_app. split; [done|]. split; [|apply NoDup_singleton].
      intros x Hx ->%list_elem_of_singleton. by apply Hout, Hlog.
    + intros u. rewrite elem_of_app, list_elem_of_singleton, elem_of_union,
        elem_of_singleton, Hlog. tauto.
Qed.

(** [pdfs] holds the PDF link targets of the pages requested, and nothing
    else. *)
Lemma scan_inv_pdfs b st :
  scan_reaches b st ->
  ∀ x, x ∈ pdfs st ↔ ∃ url, url ∈ scan_log st ∧ x ∈ page_targets url ∧ is_pdf x = true.
Proof.
  induction 1 as [|st st' _ IH Hit]; intros x.
  - simpl. split; [set_solver|]. intros (url & Hu & _). by apply elem_of_nil in Hu.
  - apply scan_iteration_spec in Hit as (url & rest & Hq & Hcase).
    destruct Hcase as [[Hin ->]|(Hout & Hv & Hl & Hp & _)]; [by apply IH|].
    rewrite Hp, IH, Hl. split.
    + intros [(u & Hu & ?)|[? ?]].
      * exists u. split; [|done]. apply elem_of_app. by left.
      * exists url. split; [|done]. apply elem_of_app. right. by apply list_elem_of_singleton.
    + intros (u & [Hu| ->%list_elem_of_singleton]%elem_of_app & ?); [|by right].
      left. by exists u.
Qed.

Lemma scan_inv_pages b pages st :
  finite_site b pages -> scan_reaches b st ->
  visited st ⊆ pages ∧ ∀ u, u ∈ queue st -> u ∈ pages.
Proof.
  intros [Hb Hclosed]. induction 1 as [|st st' _ [Hvis Hqu] Hit].
  - simpl. split; [set_solver|]. by intros u ->%list_elem_of_singleton.
  - apply scan_iteration_spec in Hit as (url & rest & Hq & Hcase).
    rewrite Hq in Hqu.
    destruct Hcase as [[Hin ->]|(Hout & Hv & _ & _ & new & Hq' & Hnew)]; simpl.
    + split; [done|]. intros u Hu. apply Hqu. by apply elem_of_cons; right.
    + assert (url ∈ pages) by (apply Hqu; by apply elem_of_cons; left).
      rewrite Hv, Hq'. split; [set_solver|].
      intros u [Hu|Hu]%elem_of_app; [apply Hqu; by apply elem_of_cons; right|].
      destruct (Hnew u Hu) as (?&?&?&?). by apply (Hclosed url u).
Qed.

(** Every URL visited or waiting is the start URL or carries no
    fragment. *)
Lemma scan_inv_no_fragment b st :
  scan_reaches b st ->
  ∀ u, u ∈ visited st ∨ u ∈ queue st -> u = b ∨ split_0 "#" u = u.
Proof.
  induction 1 as [|st st' _ IH Hit].
  - simpl. intros u [Hu|Hu]; [set_solver|]. left. by apply list_elem_of_singleton in Hu.
  - apply scan_iteration_spec in Hit as (url & rest & Hq & Hcase). rewrite Hq in IH.
    destruct Hcase as [[Hin ->]|(Hout & Hv & _ & _ & new & Hq' & Hnew)]; simpl.
    + intros u [Hu|Hu]; apply IH; [by left|right; by apply elem_of_cons; right].
    + intros u. rewrite Hv, Hq'. intros [[Hu|Hu]%elem_of_union|[Hu|Hu]%elem_of_app].
      * apply elem_of_singleton in Hu as ->. apply IH. right. by apply elem_of_cons; left.
      * apply IH. by left.
      * apply IH. right. by apply elem_of_cons; right.
      * right. destruct (Hnew u Hu) as (Ht & _). by eapply page_targets_fragment_free.
Qed.

(** *** Termination on a finite site *)

Lemma scan_total_queue b pages n :
  finite_site b pages ->
  (∀ st, scan_reaches b st -> (size (pages ∖ visited st) < n)%nat ->
         ∃ fuel st', scan_loop fuel b st = Some st') ->
  ∀ q st, queue st = q -> scan_reaches b st -> (size (pages ∖ visited st) <= n)%nat ->
          ∃ fuel st', scan_loop fuel b st = Some st'.
Proof.
  intros Hsite Hless. induction q as [|url rest IH]; intros st Hq Hr Hsize.
  - exists 1%nat, st. simpl. rewrite (proj2 (scan_iteration_None b st)); done.
  - destruct (scan_iteration b st) as [st1|] eqn:Hit.
    2: { apply scan_iteration_None in Hit. congruence. }
    assert (scan_reaches b st1) as Hr1 by (by eapply scan_reaches_turn).
    assert (∃ fuel st', scan_loop fuel b st1 = Some st') as (fuel & st' & Hloop).
    { destruct (scan_inv_pages _ _ _ Hsite Hr) as [_ Hqu].
      apply scan_iteration_spec in Hit as (url' & rest' & Hq' & Hcase).
      rewrite Hq in Hq'. simplify_eq.
      destruct Hcase as [[Hin ->]|(Hout & Hv & _)].
      - apply IH; [done|by subst|done].
      - apply Hless; [done|]. rewrite Hv.
        assert (url' ∈ pages) by (apply Hqu; rewrite Hq; by apply elem_of_cons; left).
        pose proof (size_difference_new pages (visited st) [url']) as Hs.
        simpl in Hs. rewrite (right_id_L ∅ (∪)) in Hs.
        rewrite <- Hs in Hsize; [lia|apply NoDup_singleton|].
        intros x ->%list_elem_of_singleton. done. }
    exists (S fuel), st'. simpl. by rewrite Hit.
Qed.

Lemma scan_total b pages :
  finite_site b pages ->
  ∀ n st, scan_reaches b st -> (size (pages ∖ visited st) < n)%nat ->
          ∃ fuel st', scan_loop fuel b st = Some st'.
Proof.
  intros Hsite. induction n as [|n IH]; intros st Hr Hlt; [lia|].
  apply (scan_total_queue b pages n Hsite IH (queue st) st); [done..|lia].
Qed.

End FinderFacts.

(** ** Failing requests *)

Section FailureFacts.
Context {W : World}.

Lemma get_page_links_on_failure self url :
  fetch_fails url -> get_page_links self url = (∅, log_get self url).
Proof.
  unfold get_page_links. intros [->|(response & -> & ->)]; done.
Qed.

(** A failing request costs the turn and nothing else: the loop of
    [crawl] goes on with the rest of the frontier. *)
Lemma crawl_turn_on_failure self url depth rest :
  depth <= max_depth self -> fetch_fails url ->
  crawl_iteration self ((url, depth) :: rest) = Some (log_get self url, rest).
Proof.
  intros Hle Hfail. unfold crawl_iteration.
  rewrite (proj2 (Z.ltb_ge _ _) Hle), (get_page_links_on_failure _ _ Hfail).
  by rewrite (elements_empty (C := gset string)).
Qed.

(** When the request for the start URL fails the crawl ends after that
    one turn with no PDF found and the start URL alone visited. *)
Lemma crawl_root_failure b m :
  0 <= m -> fetch_fails b ->
  ∃ self, crawl 2 (PDFCrawler_init b m) = Some self ∧
          pdf_urls self = ∅ ∧ visited_urls self = {[b]} ∧ get_log self = [b].
Proof.
  intros Hm Hfail. eexists. split.
  - unfold crawl, crawl_start. cbn [crawl_loop].
    rewrite crawl_turn_on_failure by done. reflexivity.
  - simpl. split; [done|]. split; [|done]. apply (right_id_L ∅ (∪)).
Qed.

(** In [find_all_pdfs] a raising [session.get] costs the turn and nothing
    else. *)
Lemma scan_turn_on_error b st url rest :
  queue st = url :: rest -> url ∉ visited st -> session_get url = None ->
  scan_iteration b st
  = Some (mkScan ({[url]} ∪ visited st) (pdfs st) rest (scan_log st ++ [url])).
Proof.
  intros Hq Hout Hget. unfold scan_iteration. rewrite Hq.
  destruct (decide (url ∈ visited st)); [done|]. by rewrite Hget.
Qed.

Lemma scan_root_error b :
  session_get b = None ->
  ∃ st, find_all_pdfs 2 b = Some st ∧ pdfs st = ∅ ∧ visited st = {[b]} ∧ scan_log st = [b].
Proof.
  intros Hget. eexists. split.
  - unfold find_all_pdfs. cbn [scan_loop].
    rewrite (scan_turn_on_error b (scan_start b) b []); [reflexivity|done|set_solver|done].
  - simpl. split; [done|]. split; [|done]. apply (right_id_L ∅ (∪)).
Qed.

End FailureFacts.

(** ** The download loops *)

Section DownloadFacts.
Context {W : World}.

(** One download touches no path but its own. *)
Lemma get_and_write_frame disk url filepath p :
  p ≠ filepath -> (get_and_write disk url filepath).1 !! p = disk !! p.
Proof.
  intros Hne. unfold get_and_write.
  destruct (session_get url) as [response|]; [|done].
  destruct (raises_for_status response); [done|].
  destruct (write_result disk filepath (content response)); simpl; [|done|];
    by rewrite lookup_insert_ne.
Qed.

(** A failing request leaves the disk as it is. *)
Lemma get_and_write_on_failure disk url filepath :
  fetch_fails url -> get_and_write disk url filepath = (disk, Failed).
Proof.
  unfold get_and_write. intros [->|(response & -> & ->)]; done.
Qed.

(** A download that succeeds has written the body it got. *)
Lemma get_and_write_succeeded disk url filepath :
  (get_and_write disk url filepath).2 = Succeeded ->
  ∃ response, session_get url = Some response ∧
              (get_and_write disk url filepath).1 !! filepath = Some (content response).
Proof.
  unfold get_and_write.
  destruct (session_get url) as [response|]; [|done].
  destruct (raises_for_status response); [done|].
  destruct (write_result disk filepath (content response)); simpl; [|done..].
  intros _. exists response. split; [done|]. apply lookup_insert_eq.
Qed.

Lemma download_item_report output_dir items :
  ∀ disk report,
    out_url <$> (foldl (download_item output_dir) (disk, report) items).2
    = (out_url <$> report) ++ items.*2.
Proof.
  induction items as [|[i url] items IH]; intros disk report; csimpl.
  - by rewrite app_nil_r.
  - destruct (get_and_write disk url _) as [disk1 status].
    rewrite IH, fmap_app. csimpl. by rewrite <- app_assoc.
Qed.

Lemma enumerate_1_snd {A} (l : list A) : (enumerate_1 l).*2 = l.
Proof.
  unfold enumerate_1. rewrite fmap_imap. apply list_eq. intros i.
  rewrite list_lookup_imap. by destruct (l !! i).
Qed.

Lemma sorted_empty : sorted ∅ = [].
Proof. unfold sorted. by rewrite (elements_empty (C := gset string)). Qed.

Lemma download_pdfs_prefix self output_dir disk :
  download_pdfs self output_dir disk
  = download_prefix self output_dir disk (length (sorted (pdf_urls self))).
Proof.
  unfold download_pdfs, download_prefix.
  destruct (decide (pdf_urls self = ∅)) as [->|_].
  - by rewrite sorted_empty.
  - rewrite firstn_all2; [done|]. unfold enumerate_1. by rewrite length_imap.
Qed.

Lemma download_prefix_S self output_dir disk k url :
  sorted (pdf_urls self) !! k = Some url ->
  download_prefix self output_dir disk (S k)
  = download_item output_dir (download_prefix self output_dir disk k) (S k, url).
Proof.
  intros Hk. unfold download_prefix.
  rewrite (take_S_r _ k (S k, url)).
  - by rewrite foldl_app.
  - unfold enumerate_1. by rewrite list_lookup_imap, Hk.
Qed.

(** The loop of [download_from_file] tries every URL in turn and counts
    the calls of [download_pdf] that returned [True]. *)
Lemma download_file_fold output_dir urls :
  ∀ disk success tried,
    ∃ disk' results,
      foldl (download_file_item output_dir) (disk, success, tried) urls
      = (disk', (success + length (filter (λ t, t.2 = true) results))%nat, tried ++ results) ∧
      results.*1 = urls.
Proof.
  induction urls as [|url urls IH]; intros disk success tried.
  - exists disk, []. simpl. by rewrite app_nil_r, Nat.add_0_r.
  - simpl foldl.
    destruct (download_pdf url output_dir disk) as [disk1 ok].
    destruct (IH disk1 (if ok then S success else success) (tried ++ [(url, ok)]))
      as (disk' & results & Heq & Hurls).
    exists disk', ((url, ok) :: results). rewrite Heq. split.
    + rewrite <- app_assoc. simpl. f_equal. f_equal.
      rewrite filter_cons. simpl. destruct ok.
      * rewrite decide_True by done. simpl. lia.
      * rewrite decide_False by done. lia.
    + csimpl. by rewrite Hurls.
Qed.

Lemma download_pdf_on_failure url output_dir disk :
  fetch_fails url -> download_pdf url output_dir disk = (disk, false).
Proof.
  intros Hfail. unfold download_pdf. by rewrite get_and_write_on_failure.
Qed.

(** A request that is answered and passes [raise_for_status] ends as the
    write ends. *)
Lemma get_and_write_response disk url filepath response :
  session_get url = Some response -> raises_for_status response = false ->
  get_and_write disk url filepath
  = match write_result disk filepath (content response) with
    | Written => (<[filepath := content response]> disk, Succeeded)
    | OpenRaises => (disk, Failed)
    | WriteRaises part => (<[filepath := part]> disk, Failed)
    end.
Proof. intros Hget Hok. unfold get_and_write. by rewrite Hget, Hok. Qed.

Lemma download_pdf_response url output_dir disk response :
  session_get url = Some response -> raises_for_status response = false ->
  let filename :=
    if falls_back url then "document_" +:+ pretty (hash url) +:+ ".pdf"
    else basename (path url) in
  let filepath := os_path_join output_dir filename in
  download_pdf url output_dir disk
  = match write_result disk filepath (content response) with
    | Written => (<[filepath := content response]> disk, true)
    | OpenRaises => (disk, false)
    | WriteRaises part => (<[filepath := part]> disk, false)
    end.
Proof.
  intros Hget Hok filename filepath. unfold download_pdf. fold (falls_back url).
  fold filename. fold filepath. rewrite (get_and_write_response _ _ _ _ Hget Hok).
  by destruct (write_result disk filepath (content response)).
Qed.

(** One more URL at the end of the list is one more call of
    [download_pdf], on the disk as the calls before it have left it. *)
Lemma download_from_file_snoc urls url output_dir disk :
  download_from_file (urls ++ [url]) output_dir disk
  = download_file_item output_dir (download_from_file urls output_dir disk) url.
Proof.
  unfold download_from_file. destruct urls as [|u urls]; [done|].
  change ((u :: urls) ++ [url]) with (u :: (urls ++ [url])).
  cbn [foldl]. by rewrite foldl_app.
Qed.

End DownloadFacts.

(** * The claims *)


Section Claims.
Context {W : World}.

(** C1. On a finite site (a finite set of pages closed under the links that
    are in scope and no PDF, each page yielding a list of links) and for
    every [max_depth], [PDFCrawler.crawl] terminates: with any fuel above
    the number of pages, the loop leaves with the frontier empty. Likewise
    [find_all_pdfs]: some fuel lets its loop leave with the queue empty. *)
Theorem crawl_terminates (base_url : string) (max_depth : Z) (pages : gset string) :
  finite_site base_url pages ->
  (∀ fuel, (size pages < fuel)%nat ->
     ∃ self, crawl fuel (PDFCrawler_init base_url max_depth) = Some self ∧
             crawl_reaches (PDFCrawler_init base_url max_depth) self []) ∧
  (∃ fuel st, find_all_pdfs fuel base_url = Some st ∧
              scan_reaches base_url st ∧ queue st = []).
Proof.
  intros Hsite. split.
  - intros fuel Hfuel.
    destruct (crawl_total base_url max_depth pages fuel Hsite Hfuel) as [self Hself].
    exists self. split; [done|]. by eapply crawl_final.
  - destruct (scan_total base_url pages Hsite (S (size (pages ∖ ∅)))
                (scan_start base_url)) as (fuel & st & Hloop).
    + apply scan_reaches_start.
    + simpl. lia.
    + exists fuel, st. split; [done|].
      eapply scan_loop_reaches; [apply scan_reaches_start|done].
Qed.

(** C2 (as amended). From a start URL that carries no fragment, no
    normalized URL is handed to the page fetcher twice, in either crawler,
    also when several pages of one layer link to it: the URLs requested,
    fragment removed, are all different. In [PDFCrawler.crawl] a URL is
    marked in [visited_urls] when it is enqueued: at every point the
    frontier holds no normalized URL twice, and each of its URLs is marked
    and not yet fetched. In [find_all_pdfs] a URL is marked when it is
    dequeued: at every point the URLs marked are exactly the URLs fetched,
    each fetched once. *)
Theorem fetch_at_most_once (base_url : string) (max_depth : Z) :
  split_0 "#" base_url = base_url ->
  (∀ self queue,
     crawl_reaches (PDFCrawler_init base_url max_depth) self queue ->
     NoDup (split_0 "#" <$> get_log self) ∧ NoDup (split_0 "#" <$> queue.*1) ∧
     ∀ u, u ∈ queue.*1 ->
          u ∈ visited_urls self ∧ split_0 "#" u ∉ split_0 "#" <$> get_log self) ∧
  (∀ st,
     scan_reaches base_url st ->
     NoDup (split_0 "#" <$> scan_log st) ∧ ∀ u, u ∈ scan_log st ↔ u ∈ visited st).
Proof.
  intros Hstart. split.
  - intros self queue Hr.
    destruct (inv_visited _ _ _ _ Hr) as (_ & Hq & Hl & Hnd).
    assert (Hfree : ∀ u, u ∈ visited_urls self -> split_0 "#" u = u).
    { intros u Hu. by destruct (inv_no_fragment _ _ _ _ Hr u Hu) as [->|]. }
    rewrite !fmap_fixed by (intros u Hu; apply Hfree; auto).
    apply NoDup_app in Hnd as (Hlog & Hdisj & Hqueue).
    split; [done|]. split; [done|]. intros u Hu. split; [by apply Hq|].
    rewrite Hfree by (by apply Hq). intros Hin. by apply (Hdisj u).
  - intros st Hr. destruct (scan_inv_log base_url st Hr) as [Hnd Hlog].
    split; [|done]. rewrite fmap_fixed; [done|].
    intros u Hu. apply Hlog in Hu.
    destruct (scan_inv_no_fragment _ _ Hr u) as [->|]; auto.
Qed.

(** C3. With [max_depth = 0] the crawl ends having fetched the start URL
    and no other page, whatever the site; and for every [max_depth], a URL
    whose BFS distance from the start URL is more than [max_depth] is at no
    point among the URLs fetched. *)
Theorem depth_boundary (base_url : string) :
  (∃ fuel self,
     crawl fuel (PDFCrawler_init base_url 0) = Some self ∧ get_log self = [base_url]) ∧
  (∀ fuel self,
     crawl fuel (PDFCrawler_init base_url 0) = Some self -> get_log self = [base_url]) ∧
  (∀ max_depth self queue url,
     crawl_reaches (PDFCrawler_init base_url max_depth) self queue ->
     farther_than (PDFCrawler_init base_url max_depth) max_depth url ->
     url ∉ get_log self).
Proof.
  split; [apply crawl_depth_0|]. split.
  - intros fuel self Hself.
    destruct (crawl_depth_0 base_url) as (fuel0 & self0 & Hself0 & Hlog).
    by rewrite (crawl_deterministic _ _ _ _ _ Hself Hself0).
  - intros max_depth self queue url Hr Hfar Hlog.
    destruct (inv_chain _ _ _ _ Hr) as [_ Hchain].
    destruct (Hchain url Hlog) as (d & Hd & Hc). by apply (Hfar d).
Qed.

(** C4 (as amended). For [max_depth >= 0], every pair [(url, depth)] in the
    frontier has [0 <= depth <= max_depth + 1] at every point of the crawl.
    Pairs of depth [max_depth + 1] are enqueued; the guard at dequeue drops
    such a pair with nothing fetched and nothing else changed. *)
Theorem frontier_depth_bound (base_url : string) (max_depth : Z)
    (self : PDFCrawler) (queue : Queue) :
  0 <= max_depth ->
  crawl_reaches (PDFCrawler_init base_url max_depth) self queue ->
  (∀ url depth, (url, depth) ∈ queue -> 0 <= depth <= max_depth + 1) ∧
  (∀ url depth rest,
     queue = (url, depth) :: rest -> max_depth < depth ->
     crawl_iteration self queue = Some (self, rest)).
Proof.
  intros Hm Hr. split.
  - by eapply inv_depth.
  - intros url depth rest -> Hlt. apply crawl_iteration_skip.
    destruct (inv_base _ _ _ Hr) as (_&_&->). done.
Qed.


(** X1. A failing request does not end the crawl. In [PDFCrawler.crawl] a
    request that raises, or whose status [raise_for_status] refuses, costs
    its turn and the loop goes on with the rest of the frontier; if it is
    the request for the start URL, the crawl ends with no PDF found and the
    start URL alone visited. In [find_all_pdfs] the same holds of a request
    that raises: the URL is marked and logged, nothing else changes, and
    the loop goes on with the rest of the queue. *)
Theorem crawler_survives_fetch_failure (base_url : string) (bound : Z) :
  fetch_fails base_url ->
  (∀ self url depth rest,
     depth <= max_depth self -> fetch_fails url ->
     crawl_iteration self ((url, depth) :: rest) = Some (log_get self url, rest)) ∧
  (0 <= bound ->
   ∃ self, crawl 2 (PDFCrawler_init base_url bound) = Some self ∧
           pdf_urls self = ∅ ∧ visited_urls self = {[base_url]}) ∧
  (∀ start st url rest,
     queue st = url :: rest -> url ∉ visited st -> session_get url = None ->
     scan_iteration start st
     = Some (mkScan ({[url]} ∪ visited st) (pdfs st) rest (scan_log st ++ [url]))) ∧
  (session_get base_url = None ->
   ∃ st, find_all_pdfs 2 base_url = Some st ∧ pdfs st = ∅ ∧ visited st = {[base_url]}).
Proof.
  intros Hfail. split; [|split; [|split]].
  - intros self url depth rest. apply crawl_turn_on_failure.
  - intros Hm. destruct (crawl_root_failure base_url bound Hm Hfail) as (self & ? & ? & ? & _).
    by exists self.
  - intros start st url rest Hq Hout Hget. unfold scan_iteration.
    rewrite Hq, decide_False by done. by rewrite Hget.
  - intros Hget. destruct (scan_root_error base_url Hget) as (st & ? & ? & ? & _).
    by exists st.
Qed.

(** X2. Two links of a page whose URLs differ by their fragments only are the
    same link to both crawlers: the loop bodies go the same way on them. *)
Theorem link_fragment_invariant (url href1 href2 fragment : string) :
  urljoin url href1
  = (fun full_url => full_url +:+ String "#" fragment) <$> urljoin url href2 ->
  (∀ acc, page_link url acc href1 = page_link url acc href2) ∧
  (∀ base_domain base_path vis acc,
     scan_link base_domain base_path url vis acc href1
     = scan_link base_domain base_path url vis acc href2).
Proof.
  intros Hjoin. split.
  - intros [links self]. unfold page_link. rewrite Hjoin.
    destruct (urljoin url href2) as [full_url|]; [|done]. simpl.
    by rewrite split_0_fragment.
  - intros base_domain base_path vis [pdfs0 queue0]. unfold scan_link. rewrite Hjoin.
    destruct (urljoin url href2) as [full_url|]; [|done]. simpl.
    by rewrite split_0_fragment.
Qed.

End Claims.

Section DownloadClaims.
Context {W : World}.

(** C9 (as amended). [PDFCrawler.download_pdfs] goes through the sorted
    URLs one by one, and whatever happened to the items before, item [k]
    is tried and its line is added to the report; so the report lists
    every URL of the batch, in order. An item whose request fails
    (transport error or a status that [raise_for_status] refuses) is
    reported as failed and leaves the disk as it was. An item whose request
    is answered and passes [raise_for_status] ends as its write ends: if
    the write goes through, the item is reported as succeeded and its file
    holds the body of the response; if [open] raises, it is reported as
    failed and the disk is as it was; if the write raises after [open], it
    is reported as failed and its own path holds the part that got
    through, also when a file of an earlier item was there. No item,
    failed or not, changes a file at a path other than the one derived for
    it. [download_from_file] likewise calls [download_pdf] on every URL of
    its list, each on the disk as the calls before have left it, and
    counts the calls that returned [True]; [download_pdf] ends as
    an item of the batch does. *)
Theorem download_isolation (self : PDFCrawler) (output_dir : string) (disk : gmap string Body)
    (k : nat) (url : string) :
  sorted (pdf_urls self) !! k = Some url ->
  let before := download_prefix self output_dir disk k in
  let after := download_prefix self output_dir disk (S k) in
  let filename := crawler_filename (S k) url in
  let filepath := os_path_join output_dir filename in
  out_url <$> (download_pdfs self output_dir disk).2 = sorted (pdf_urls self) ∧
  download_pdfs self output_dir disk
  = download_prefix self output_dir disk (length (sorted (pdf_urls self))) ∧
  (∃ status,
     after.2 = before.2 ++ [mkOutcome url filename status] ∧
     (fetch_fails url -> status = Failed ∧ after.1 = before.1) ∧
     (status = Succeeded ->
      ∃ response, session_get url = Some response ∧
                  after.1 !! filepath = Some (content response)) ∧
     (∀ response,
        session_get url = Some response -> raises_for_status response = false ->
        match write_result before.1 filepath (content response) with
        | Written => status = Succeeded ∧ after.1 = <[filepath := content response]> before.1
        | OpenRaises => status = Failed ∧ after.1 = before.1
        | WriteRaises part => status = Failed ∧ after.1 = <[filepath := part]> before.1
        end)) ∧
  (∀ p, p ≠ filepath -> after.1 !! p = before.1 !! p) ∧
  (∀ urls, ∃ disk' results,
     download_from_file urls output_dir disk
     = (disk', length (filter (λ t, t.2 = true) results), results) ∧
     results.*1 = urls) ∧
  (∀ urls u,
     download_from_file (urls ++ [u]) output_dir disk
     = let '(d, success, tried) := download_from_file urls output_dir disk in
       let '(d', ok) := download_pdf u output_dir d in
       (d', if ok then S success else success, tried ++ [(u, ok)])) ∧
  (∀ u d, fetch_fails u -> download_pdf u output_dir d = (d, false)) ∧
  (∀ u d response,
     session_get u = Some response -> raises_for_status response = false ->
     let name :=
       if falls_back u then "document_" +:+ pretty (hash u) +:+ ".pdf"
       else basename (path u) in
     let file := os_path_join output_dir name in
     download_pdf u output_dir d
     = match write_result d file (content response) with
       | Written => (<[file := content response]> d, true)
       | OpenRaises => (d, false)
       | WriteRaises part => (<[file := part]> d, false)
       end).
Proof.
  intros Hk before after filename filepath.
  split; [|split; [apply download_pdfs_prefix|]].
  { rewrite download_pdfs_prefix. unfold download_prefix.
    rewrite firstn_all2 by (unfold enumerate_1; by rewrite length_imap).
    by rewrite download_item_report, enumerate_1_snd. }
  subst after. rewrite (download_prefix_S _ _ _ _ _ Hk). fold before.
  destruct before as [disk0 report0]. unfold download_item.
  fold filename. fold filepath.
  pose proof (get_and_write_frame disk0 url filepath) as Hframe.
  pose proof (get_and_write_on_failure disk0 url filepath) as Hfail.
  pose proof (get_and_write_succeeded disk0 url filepath) as Hok.
  pose proof (get_and_write_response disk0 url filepath) as Hresp.
  destruct (get_and_write disk0 url filepath) as [disk1 status]. simpl in *.
  split; [|split; [|split; [|split; [|split]]]].
  - exists status. split; [done|]. split; [|split; [done|]].
    + intros Hf. specialize (Hfail Hf). by simplify_eq.
    + intros response Hget Hpass. specialize (Hresp response Hget Hpass).
      destruct (write_result disk0 filepath (content response)); by simplify_eq.
  - intros p Hp. by apply Hframe.
  - intros urls. destruct urls as [|u urls]; [by exists disk, []|].
    destruct (download_file_fold output_dir (u :: urls) disk O []) as (disk' & results & Heq & Hu).
    exists disk', results. split; [|done]. unfold download_from_file. by rewrite Heq.
  - intros urls u. rewrite download_from_file_snoc.
    by destruct (download_from_file urls output_dir disk) as [[d success] tried].
  - intros u d. apply download_pdf_on_failure.
  - intros u d response. apply download_pdf_response.
Qed.

End DownloadClaims.

(** C6 (as amended). [is_pdf] holds of a URL exactly when the whole URL
    text, lowercased, ends with [.pdf]; the test is made on the URL as a
    string, not on its path. What follows the path takes part: behind a
    question mark the query alone decides. *)
Theorem is_pdf_whole_url :
  (∀ url, is_pdf url = true ↔ ∃ prefix, lower url = prefix +:+ ".pdf") ∧
  (∀ url query, is_pdf (url +:+ "?" +:+ query) = is_pdf query).
Proof.
  split.
  - intros url. apply endswith_spec.
  - intros url query. unfold is_pdf.
    rewrite lower_append. change (lower ("?" +:+ query)) with (String "?" (lower query)).
    apply endswith_after_question_mark.
Qed.

(** C6, as stated. A URL whose path ends with [.pdf] and which carries a
    query is not taken for a PDF, and a URL whose query ends with [.pdf]
    is, whatever its path. *)
Lemma is_pdf_reads_the_query :
  (endswith (lower (Sample.path_of "https://ex.com/doc.pdf?v=2")) ".pdf" = true ∧
   is_pdf "https://ex.com/doc.pdf?v=2" = false) ∧
  (endswith (lower (Sample.path_of "https://ex.com/view?file=a.pdf")) ".pdf" = false ∧
   is_pdf "https://ex.com/view?file=a.pdf" = true).
Proof. repeat split; vm_compute; reflexivity. Qed.

(** C10. A link that waits in the frontier at a depth beyond [max_depth]
    is in [visited_urls] and is never fetched: when the crawl ends it is
    still marked and not in the fetch log. So the count of pages scanned,
    the size of [visited_urls], can exceed the number of pages fetched: on
    the site of two pages with [max_depth = 0] one page is fetched and two
    are counted. *)
Theorem visited_exceeds_fetched :
  (∀ (W : World) base_url max_depth self queue url depth fuel self',
     crawl_reaches (PDFCrawler_init base_url max_depth) self queue ->
     (url, depth) ∈ queue -> max_depth < depth ->
     crawl_loop fuel self queue = Some self' ->
     url ∈ visited_urls self' ∧ url ∉ get_log self') ∧
  (∃ fuel self',
     crawl (W := Sample.two_pages_world) fuel
       (PDFCrawler_init (W := Sample.two_pages_world) "https://ex.com/" 0) = Some self' ∧
     get_log self' = ["https://ex.com/"] ∧
     (2 <= pages_scanned self')%nat ∧ (length (get_log self') < pages_scanned self')%nat).
Proof.
  split.
  - intros W base_url max_depth self queue url depth fuel self' Hr Hq Hlt Hloop.
    eapply never_fetched_loop; [|exact Hloop].
    destruct (inv_visited _ _ _ _ Hr) as (_ & Hvis & _ & Hnd).
    destruct (inv_base _ _ _ Hr) as (_&_&Hmax). simpl in Hmax.
    apply NoDup_app in Hnd as (_ & Hdisj & Hqueue).
    assert (url ∈ queue.*1) as Hin.
    { apply list_elem_of_fmap. by exists (url, depth). }
    split; [by apply Hvis|]. split.
    + intros Hl. by apply (Hdisj url).
    + intros d Hd. rewrite Hmax. by rewrite (fst_NoDup_functional queue url d depth).
  - exists 3%nat. eexists. split; [vm_compute; reflexivity|].
    split; [reflexivity|]. split; vm_compute; lia.
Qed.


Section DocsSite.
#[local] Existing Instance Sample.docs_world.

Lemma docs_site_finite : finite_site "https://ex.com/docs" Sample.docs_pages.
Proof.
  split; [in_literal_set|].
  intros url target Hu Ht Hpdf Hscope. unfold Sample.docs_pages in Hu.
  rewrite !elem_of_union, !elem_of_singleton in Hu.
  destruct_or!; subst; vm_compute in Ht; literal_list_cases Ht;
    first [ discriminate Hpdf | discriminate Hscope | in_literal_set ].
Qed.

Lemma crawl_terminates_witness :
  finite_site "https://ex.com/docs" Sample.docs_pages ∧
  (∃ self, crawl 6 (PDFCrawler_init "https://ex.com/docs" 2) = Some self ∧
           crawl_reaches (PDFCrawler_init "https://ex.com/docs" 2) self []) ∧
  (∃ fuel st, find_all_pdfs fuel "https://ex.com/docs" = Some st ∧
              scan_reaches "https://ex.com/docs" st ∧ queue st = []).
Proof.
  split; [exact docs_site_finite|].
  destruct (crawl_terminates "https://ex.com/docs" 2 Sample.docs_pages docs_site_finite)
    as [Hcrawl Hscan].
  split; [|exact Hscan].
  apply (Hcrawl 6%nat). vm_compute. lia.
Defined.

End DocsSite.

Section DocsSiteRuns.
#[local] Existing Instance Sample.docs_world.

Lemma fetch_at_most_once_witness :
  split_0 "#" "https://ex.com/docs" = "https://ex.com/docs" ∧
  (∃ self, crawl 6 (PDFCrawler_init "https://ex.com/docs" 2) = Some self ∧
           get_log self = [ "https://ex.com/docs"; "https://ex.com/docs/a";
                            "https://ex.com/docs/b"; "https://ex.com/docs/c" ] ∧
           NoDup (split_0 "#" <$> get_log self)) ∧
  (∃ st, find_all_pdfs 8 "https://ex.com/docs" = Some st ∧
         scan_log st = [ "https://ex.com/docs"; "https://ex.com/docs/a";
                         "https://ex.com/docs/b"; "https://ex.com/docs/c";
                         "https://ex.com/docs/d" ] ∧
         NoDup (split_0 "#" <$> scan_log st)).
Proof.
  split; [reflexivity|].
  pose proof (fetch_at_most_once "https://ex.com/docs" 2 eq_refl) as [Hcrawl Hscan].
  split.
  - eexists. split; [vm_compute; reflexivity|]. split; [reflexivity|].
    refine (proj1 (Hcrawl _ [] _)).
    apply (crawl_final _ 6%nat). vm_compute. reflexivity.
  - eexists. split; [vm_compute; reflexivity|]. split; [vm_compute; reflexivity|].
    refine (proj1 (Hscan _ _)).
    refine (proj1 (scan_loop_reaches _ 8%nat _ _ (scan_reaches_start _) _)).
    vm_compute. reflexivity.
Defined.

(** The page [c] is two links away from the start URL. *)
Lemma docs_c_farther_than_1 :
  farther_than (PDFCrawler_init "https://ex.com/docs" 1) 1 "https://ex.com/docs/c".
Proof.
  intros d Hd Hc. destruct d as [|[|d]]; [| |lia].
  - inversion Hc.
  - inversion Hc as [|d' url link Hroot Hlink]; subst.
    inversion Hroot; subst.
    apply elem_of_elements in Hlink. vm_compute in Hlink. literal_list_absurd Hlink.
Qed.

Lemma depth_boundary_witness :
  ∃ self, crawl 6 (PDFCrawler_init "https://ex.com/docs" 1) = Some self ∧
          get_log self = [ "https://ex.com/docs"; "https://ex.com/docs/a";
                           "https://ex.com/docs/b" ] ∧
          "https://ex.com/docs/c" ∉ get_log self.
Proof.
  eexists. split; [vm_compute; reflexivity|]. split; [reflexivity|].
  refine (proj2 (proj2 (depth_boundary "https://ex.com/docs")) 1 _ [] _ _ _).
  - apply (crawl_final _ 6%nat). vm_compute. reflexivity.
  - exact docs_c_farther_than_1.
Defined.


Lemma link_fragment_invariant_witness :
  urljoin "https://ex.com/docs/a" "https://ex.com/docs/c#sec"
  = (fun full_url => full_url +:+ String "#" "sec")
      <$> urljoin "https://ex.com/docs/a" "https://ex.com/docs/c" ∧
  (∀ acc, page_link "https://ex.com/docs/a" acc "https://ex.com/docs/c#sec"
          = page_link "https://ex.com/docs/a" acc "https://ex.com/docs/c") ∧
  (∀ base_domain base_path vis acc,
     scan_link base_domain base_path "https://ex.com/docs/a" vis acc
       "https://ex.com/docs/c#sec"
     = scan_link base_domain base_path "https://ex.com/docs/a" vis acc
         "https://ex.com/docs/c").
Proof.
  split; [reflexivity|].
  apply (link_fragment_invariant "https://ex.com/docs/a" "https://ex.com/docs/c#sec"
           "https://ex.com/docs/c" "sec"). reflexivity.
Defined.

End DocsSiteRuns.

Section TwoPagesRuns.
#[local] Existing Instance Sample.two_pages_world.

(** The state of the crawl of the two pages, [max_depth = 0], after its
    first turn. *)
Lemma two_pages_after_root :
  ∃ self,
    crawl_reaches (PDFCrawler_init "https://ex.com/" 0) self [("https://ex.com/about", 1)] ∧
    max_depth self = 0.
Proof.
  eexists. split.
  - eapply reaches_turn; [apply reaches_start|]. vm_compute. reflexivity.
  - reflexivity.
Qed.

(** C4, as stated. With [max_depth = 0] the frontier holds, after the first
    turn, the pair [(/about, 1)]: a pair of depth beyond [max_depth] is enqueued. *)
Lemma frontier_holds_deeper_pair :
  ∃ self queue url depth,
    crawl_reaches (PDFCrawler_init "https://ex.com/" 0) self queue ∧
    (url, depth) ∈ queue ∧ max_depth self < depth.
Proof.
  destruct two_pages_after_root as (self & Hr & Hm).
  exists self, [("https://ex.com/about", 1)], "https://ex.com/about", 1.
  split; [done|]. split; [by apply list_elem_of_singleton|]. rewrite Hm. lia.
Qed.

Lemma frontier_depth_bound_witness :
  ∃ self,
    0 <= 0 ∧
    crawl_reaches (PDFCrawler_init "https://ex.com/" 0) self [("https://ex.com/about", 1)] ∧
    (∀ url depth, (url, depth) ∈ [("https://ex.com/about", 1)] -> 0 <= depth <= 0 + 1) ∧
    (∀ url depth rest,
       [("https://ex.com/about", 1)] = (url, depth) :: rest -> 0 < depth ->
       crawl_iteration self [("https://ex.com/about", 1)] = Some (self, rest)).
Proof.
  destruct two_pages_after_root as (self & Hr & _).
  exists self. split; [lia|]. split; [exact Hr|].
  apply (frontier_depth_bound "https://ex.com/" 0 self _ (Z.le_refl 0) Hr).
Defined.

Lemma visited_exceeds_fetched_witness :
  ∃ self self',
    crawl_reaches (PDFCrawler_init "https://ex.com/" 0) self [("https://ex.com/about", 1)] ∧
    crawl_loop 2 self [("https://ex.com/about", 1)] = Some self' ∧
    "https://ex.com/about" ∈ visited_urls self' ∧ "https://ex.com/about" ∉ get_log self'.
Proof.
  eexists. eexists. split; [|split].
  - eapply reaches_turn; [apply reaches_start|]. vm_compute. reflexivity.
  - vm_compute. reflexivity.
  - eapply (proj1 visited_exceeds_fetched Sample.two_pages_world "https://ex.com/" 0
              _ _ "https://ex.com/about" 1 2%nat).
    + eapply reaches_turn; [apply reaches_start|]. vm_compute. reflexivity.
    + by apply list_elem_of_singleton.
    + lia.
    + vm_compute. reflexivity.
Defined.

End TwoPagesRuns.

Section SelfLinkRuns.
#[local] Existing Instance Sample.self_link_world.

(** C7. Started at [/docs#intro], the crawl stores the start URL with its
    fragment; the page links to its own top, [/docs], which is then taken
    for a new page and requested too. Started at [/docs], the same site
    gives one request and one visited URL. *)
Theorem start_fragment_kept :
  (∃ self, crawl 3 (PDFCrawler_init "https://ex.com/docs#intro" 1) = Some self ∧
           get_log self = ["https://ex.com/docs#intro"; "https://ex.com/docs"] ∧
           visited_urls self = {["https://ex.com/docs#intro"; "https://ex.com/docs"]}) ∧
  (∃ self, crawl 3 (PDFCrawler_init "https://ex.com/docs" 1) = Some self ∧
           get_log self = ["https://ex.com/docs"] ∧
           visited_urls self = {["https://ex.com/docs"]}).
Proof.
  split; eexists; (split; [vm_compute; reflexivity|]); split; vm_compute; reflexivity.
Qed.

End SelfLinkRuns.

(** C2, as stated. It fails on two counts. Three turns into
    [find_all_pdfs] on the documentation site the page [c], found on [a]
    and on [b], waits twice in the queue and is not in [visited]: that a
    URL is marked when it is enqueued does not hold of [find_all_pdfs]. And
    started at [/docs#intro], on the page that links to its own top, both
    crawlers request the page [/docs] twice, once with the fragment and
    once without. *)
Lemma marked_at_enqueue_fails :
  (∃ st, scan_reaches (W := Sample.docs_world) "https://ex.com/docs" st ∧
         queue st = ["https://ex.com/docs/c"; "https://ex.com/docs/c"] ∧
         "https://ex.com/docs/c" ∉ visited st) ∧
  (∃ self, crawl (W := Sample.self_link_world) 3
             (PDFCrawler_init (W := Sample.self_link_world) "https://ex.com/docs#intro" 1)
           = Some self ∧
           split_0 "#" <$> get_log self = ["https://ex.com/docs"; "https://ex.com/docs"]) ∧
  (∃ st, find_all_pdfs (W := Sample.self_link_world) 3 "https://ex.com/docs#intro" = Some st ∧
         split_0 "#" <$> scan_log st = ["https://ex.com/docs"; "https://ex.com/docs"]).
Proof.
  split; [|split].
  - eexists. split; [|split].
    + eapply scan_reaches_turn; [eapply scan_reaches_turn; [eapply scan_reaches_turn|]|].
      * apply scan_reaches_start.
      * vm_compute. reflexivity.
      * vm_compute. reflexivity.
      * vm_compute. reflexivity.
    + reflexivity.
    + in_literal_set.
  - eexists. split; vm_compute; reflexivity.
  - eexists. split; vm_compute; reflexivity.
Qed.

Section GoneRootRuns.
#[local] Existing Instance Sample.gone_root_world.

(** C8. The start URL answers 404 with an error page that links to a PDF.
    [PDFCrawler.crawl] takes the answer for a failure: no PDF found, the
    start URL alone visited. [find_all_pdfs], which does not call
    [raise_for_status], parses the error page and returns its PDF. *)
Theorem finder_parses_error_page :
  fetch_fails "https://ex.com/docs" ∧
  (∃ self, crawl 2 (PDFCrawler_init "https://ex.com/docs" 3) = Some self ∧
           pdf_urls self = ∅ ∧ visited_urls self = {["https://ex.com/docs"]}) ∧
  (∃ st, find_all_pdfs 2 "https://ex.com/docs" = Some st ∧
         pdfs st = {["https://ex.com/terms.pdf"]} ∧
         visited st = {["https://ex.com/docs"]}).
Proof.
  split; [|split].
  - right. eexists. split; reflexivity.
  - eexists. split; [vm_compute; reflexivity|]. split; vm_compute; reflexivity.
  - eexists. split; [vm_compute; reflexivity|]. split; vm_compute; reflexivity.
Qed.

End GoneRootRuns.

Section DeadLinkRuns.
#[local] Existing Instance Sample.dead_link_world.

Lemma crawler_survives_fetch_failure_witness :
  fetch_fails "https://ex.com/docs/gone" ∧
  (∃ self, crawl 2 (PDFCrawler_init "https://ex.com/docs/gone" 3) = Some self ∧
           pdf_urls self = ∅ ∧ visited_urls self = {["https://ex.com/docs/gone"]}) ∧
  (∃ self,
     crawl_reaches (PDFCrawler_init "https://ex.com/docs" 1) self
       [("https://ex.com/docs/gone", 1); ("https://ex.com/docs/a", 1)] ∧
     crawl_iteration self [("https://ex.com/docs/gone", 1); ("https://ex.com/docs/a", 1)]
     = Some (log_get self "https://ex.com/docs/gone", [("https://ex.com/docs/a", 1)])) ∧
  (∃ st,
     scan_reaches "https://ex.com/docs" st ∧
     queue st = ["https://ex.com/docs/gone"; "https://ex.com/docs/a"] ∧
     scan_iteration "https://ex.com/docs" st
     = Some (mkScan ({["https://ex.com/docs/gone"]} ∪ visited st) (pdfs st)
               ["https://ex.com/docs/a"] (scan_log st ++ ["https://ex.com/docs/gone"]))) ∧
  (∃ st, find_all_pdfs 2 "https://ex.com/docs/gone" = Some st ∧
         pdfs st = ∅ ∧ visited st = {["https://ex.com/docs/gone"]}) ∧
  (∃ self st, crawl 4 (PDFCrawler_init "https://ex.com/docs" 1) = Some self ∧
              find_all_pdfs 4 "https://ex.com/docs" = Some st ∧
              pdf_urls self = {["https://ex.com/docs/a.pdf"]} ∧
              pdfs st = {["https://ex.com/docs/a.pdf"]}).
Proof.
  assert (fetch_fails "https://ex.com/docs/gone") as Hfail by (by left).
  split; [exact Hfail|].
  destruct (crawler_survives_fetch_failure "https://ex.com/docs/gone" 3 Hfail)
    as (Hturn & Hroot & Hscan_turn & Hscan_root).
  split; [apply Hroot; lia|]. split; [|split; [|split]].
  - eexists. split.
    + eapply reaches_turn; [apply reaches_start|]. vm_compute. reflexivity.
    + apply Hturn; [simpl; lia|exact Hfail].
  - exists (mkScan {["https://ex.com/docs"]} ∅
              ["https://ex.com/docs/gone"; "https://ex.com/docs/a"] ["https://ex.com/docs"]).
    split; [|split; [reflexivity|]].
    + eapply scan_reaches_turn; [apply scan_reaches_start|]. vm_compute. reflexivity.
    + apply Hscan_turn; [reflexivity|in_literal_set|reflexivity].
  - by apply Hscan_root.
  - eexists. eexists. split; [vm_compute; reflexivity|].
    split; [vm_compute; reflexivity|]. split; vm_compute; reflexivity.
Defined.

End DeadLinkRuns.

Section BrokenLinkRuns.
#[local] Existing Instance Sample.broken_link_world.


End BrokenLinkRuns.

Section TwoReportsRuns.
#[local] Existing Instance Sample.two_reports_world.

(** C9, as stated. The first item writes [pdfs/report.pdf]; the second,
    from another host, derives the same file name, its write fails after
    [open], and the file of the first item is gone: a failed download has
    changed a file already written. The third item is tried all the
    same. *)
Lemma failed_write_clobbers_file :
  out_status <$> (download_prefix Sample.reports_crawler "pdfs" ∅ 1).2 = [Succeeded] ∧
  (download_prefix Sample.reports_crawler "pdfs" ∅ 1).1 !! "pdfs/report.pdf"
  = Some ["first report"] ∧
  out_status <$> (download_pdfs Sample.reports_crawler "pdfs" ∅).2
  = [Succeeded; Failed; Succeeded] ∧
  (download_pdfs Sample.reports_crawler "pdfs" ∅).1 !! "pdfs/report.pdf"
  = Some ["second report"].
Proof. repeat split; vm_compute; reflexivity. Qed.

Lemma download_isolation_witness :
  sorted (pdf_urls Sample.reports_crawler) !! 1%nat = Some "https://b.org/2024/report.pdf" ∧
  sorted (pdf_urls Sample.reports_crawler) !! 2%nat = Some "https://c.org/notes.pdf" ∧
  out_url <$> (download_pdfs Sample.reports_crawler "pdfs" ∅).2
  = sorted (pdf_urls Sample.reports_crawler) ∧
  (∀ p, p ≠ "pdfs/report.pdf" ->
        (download_prefix Sample.reports_crawler "pdfs" ∅ 2).1 !! p
        = (download_prefix Sample.reports_crawler "pdfs" ∅ 1).1 !! p) ∧
  (download_prefix Sample.reports_crawler "pdfs" ∅ 2).2
  = (download_prefix Sample.reports_crawler "pdfs" ∅ 1).2
    ++ [mkOutcome "https://b.org/2024/report.pdf" "report.pdf" Failed] ∧
  (download_prefix Sample.reports_crawler "pdfs" ∅ 3).2
  = (download_prefix Sample.reports_crawler "pdfs" ∅ 2).2
    ++ [mkOutcome "https://c.org/notes.pdf" "notes.pdf" Succeeded] ∧
  (download_prefix Sample.reports_crawler "pdfs" ∅ 3).1
  = <["pdfs/notes.pdf" := ["notes"]]> (download_prefix Sample.reports_crawler "pdfs" ∅ 2).1.
Proof.
  assert (sorted (pdf_urls Sample.reports_crawler) !! 1%nat
          = Some "https://b.org/2024/report.pdf") as Hk by (vm_compute; reflexivity).
  assert (sorted (pdf_urls Sample.reports_crawler) !! 2%nat
          = Some "https://c.org/notes.pdf") as Hk' by (vm_compute; reflexivity).
  split; [exact Hk|]. split; [exact Hk'|].
  pose proof (download_isolation Sample.reports_crawler "pdfs" ∅ 1
                "https://b.org/2024/report.pdf" Hk)
    as (Hall & _ & (status & Hreport & _ & _ & Hwrite) & Hframe & _).
  pose proof (download_isolation Sample.reports_crawler "pdfs" ∅ 2
                "https://c.org/notes.pdf" Hk')
    as (_ & _ & (status' & Hreport' & _ & _ & Hwrite') & _).
  specialize (Hwrite (mkResponse 200 ["second report"; "appendix"]) eq_refl eq_refl).
  specialize (Hwrite' (mkResponse 200 ["notes"]) eq_refl eq_refl).
  hnf in Hwrite, Hwrite'. destruct Hwrite as [-> _]. destruct Hwrite' as [-> Hdisk].
  split; [exact Hall|]. split; [exact Hframe|]. split; [exact Hreport|].
  split; [exact Hreport'|exact Hdisk].
Defined.

End TwoReportsRuns.

(** * Further properties *)

Section Bfs.
Context {W : World}.

Lemma snd_enqueued (d : Z) (new : list string) :
  ∀ x, x ∈ ((λ l, (l, d)) <$> new).*2 -> x = d.
Proof.
  intros x Hx. apply list_elem_of_fmap in Hx as ([u d'] & -> & Hp).
  apply list_elem_of_fmap in Hp as (l & [= -> ->] & _). done.
Qed.

Lemma StronglySorted_const (d : Z) (l : list Z) :
  (∀ x, x ∈ l -> x = d) -> StronglySorted Z.le l.
Proof.
  induction l as [|x l IH]; intros Hall; constructor.
  - apply IH. intros y Hy. apply Hall. by apply elem_of_cons; right.
  - apply Forall_forall. intros y Hy.
    rewrite (Hall x), (Hall y); [lia| by apply elem_of_cons; right | by apply elem_of_cons; left].
Qed.

Lemma bfs_inv_reaches b m self queue :
  crawl_reaches (PDFCrawler_init b m) self queue ->
  ∃ done, bfs_inv (PDFCrawler_init b m) self done queue.
Proof.
  revert self queue. apply crawl_reaches_cases.
  - exists []. simpl. unfold bfs_inv. simpl.
    split; [by repeat split|]. split; [by apply list_elem_of_singleton|].
    split; [intros u; rewrite (right_id_L ∅ (∪)), elem_of_singleton, list_elem_of_singleton; done|].
    split; [apply NoDup_singleton|]. split; [repeat constructor|].
    split; [intros u d url dh rest [= -> ->]%list_elem_of_singleton [= _ <- _]; lia|].
    split; [intros u d [= -> ->]%list_elem_of_singleton; split; [lia|apply chain_root]|].
    split; [done|]. intros u d link Hu. by apply elem_of_nil in Hu.
  - intros self url depth rest [done Hinv] Hlt.
    destruct Hinv as (Hb & Hroot & Hvis & Hnd & Hsort & Hbound & Hchain & Hlog & Hlinks).
    exists (done ++ [(url, depth)]). unfold bfs_inv.
    rewrite <- !app_assoc. simpl.
    split; [done|]. split; [done|]. split; [done|]. split; [done|]. split; [done|].
    split; [|split; [done|split]].
    + intros u d url' dh rest' Hu ->.
      assert (d <= depth + 1) by (by eapply Hbound).
      assert (depth <= dh); [|lia].
      rewrite fmap_app, fmap_cons in Hsort. apply StronglySorted_app_1_r in Hsort.
      apply StronglySorted_cons in Hsort as [Hall _]. simpl in Hall.
      rewrite Forall_forall in Hall. apply Hall. simpl. by apply elem_of_cons; left.
    + destruct Hb as (_&_&Hm). simpl in Hm.
      rewrite filter_app, filter_cons, decide_False by (simpl; lia).
      by rewrite filter_nil, app_nil_r.
    + intros u d link [Hu|Hu]%elem_of_app Hd Hlink.
      * by eapply Hlinks.
      * apply list_elem_of_singleton in Hu as [= -> ->].
        destruct Hb as (_&_&Hm). simpl in *. lia.
  - intros self self' url depth rest new [done Hinv] Hle Hb' Hlog' _ Hnd' Hmem Hv'.
    destruct Hinv as (Hb & Hroot & Hvis & Hnd & Hsort & Hbound & Hchain & Hlog & Hlinks).
    set (self0 := PDFCrawler_init b m) in *.
    assert (max_depth self = max_depth self0) as Hm by apply Hb.
    assert (∀ u d, (u, d) ∈ done ++ (url, depth) :: rest -> d <= depth + 1) as Hbound'.
    { intros u d Hu. by eapply Hbound. }
    destruct (Hchain url depth) as [[Hd0 _] Hchain0].
    { apply elem_of_app. right. by apply elem_of_cons; left. }
    exists (done ++ [(url, depth)]). unfold bfs_inv.
    replace ((done ++ [(url, depth)]) ++ rest ++ ((λ l, (l, depth + 1)) <$> new))
      with ((done ++ (url, depth) :: rest) ++ ((λ l, (l, depth + 1)) <$> new))
      by (by rewrite <- !app_assoc).
    split; [by eapply same_base_trans|]. split; [apply elem_of_app; by left|].
    split; [|split; [|split; [|split; [|split; [|split]]]]].
    + intros u. rewrite Hv', fmap_app, fst_enqueued, elem_of_union, elem_of_list_to_set,
        elem_of_app, Hvis. tauto.
    + rewrite fmap_app, fst_enqueued. apply NoDup_app. split; [done|]. split; [|done].
      intros x Hx Hx'. apply Hmem in Hx' as [_ Hx']. apply Hx'. by apply Hvis.
    + rewrite fmap_app. apply StronglySorted_app_2; [|done|].
      * intros x1 x2 Hx1 Hx2. apply snd_enqueued in Hx2 as ->.
        apply list_elem_of_fmap in Hx1 as ([u d] & -> & Hp). simpl. by eapply Hbound'.
      * eapply StronglySorted_const, snd_enqueued.
    + intros u d url' dh rest' Hu Hq.
      assert (d <= depth + 1).
      { apply elem_of_app in Hu as [Hu|Hu]; [by eapply Hbound'|].
        apply list_elem_of_fmap in Hu as (l & [= -> ->] & _). lia. }
      assert (depth <= dh); [|lia].
      assert ((url', dh) ∈ rest ++ ((λ l, (l, depth + 1)) <$> new)) as Hhead
          by (rewrite Hq; by apply elem_of_cons; left).
      apply elem_of_app in Hhead as [Hhead|Hhead].
      * rewrite fmap_app, fmap_cons in Hsort. apply StronglySorted_app_1_r in Hsort.
        apply StronglySorted_cons in Hsort as [Hall _]. simpl in Hall.
        rewrite Forall_forall in Hall. apply Hall.
        apply list_elem_of_fmap. by exists (url', dh).
      * apply list_elem_of_fmap in Hhead as (l & [= -> ->] & _). lia.
    + intros u d [Hu|Hu]%elem_of_app; [by apply Hchain|].
      apply list_elem_of_fmap in Hu as (l & [= -> ->] & Hl).
      split; [lia|]. replace (Z.to_nat (depth + 1)) with (S (Z.to_nat depth)) by lia.
      apply chain_link with url; [done|].
      apply Hmem in Hl as [Hl _]. by rewrite <- (get_page_links_same_base self self0).
    + rewrite Hlog', Hlog, filter_app, filter_cons.
      rewrite decide_True by (change (depth <= max_depth self0); lia).
      by rewrite filter_nil, fmap_app.
    + intros u d link [Hu|Hu]%elem_of_app Hd Hlink.
      * destruct (Hlinks u d link Hu Hd Hlink) as (d' & Hd' & ?).
        exists d'. split; [|done]. apply elem_of_app. by left.
      * apply list_elem_of_singleton in Hu as [= -> ->].
        rewrite <- (get_page_links_same_base self self0) in Hlink by done.
        destruct (decide (link ∈ visited_urls self)) as [Hin|Hout].
        -- apply Hvis, list_elem_of_fmap in Hin as ([l d'] & -> & Hp). simpl in *.
           exists d'. split; [apply elem_of_app; by left|]. by eapply Hbound'.
        -- exists (depth + 1). split; [|lia]. apply elem_of_app. right.
           apply list_elem_of_fmap. exists link. split; [done|]. by apply Hmem.
Qed.

(** X3. On a run of [crawl] that ends, the pages fetched are exactly the URLs
    at most [max_depth] links from the start URL, a link of a page being
    one that [get_page_links] returns for it (none when the loop over the
    links of the page was cut short by an [href] that [urljoin] refuses);
    the PDFs found are exactly the PDF links of those pages that the loop
    gets to (those before the first [href] refused); and the URLs marked
    visited are exactly those at most [max_depth + 1] links away. *)
Theorem crawl_breadth_first (base_url : string) (bound : Z) (fuel : nat) (self : PDFCrawler) :
  crawl fuel (PDFCrawler_init base_url bound) = Some self ->
  (∀ url, url ∈ get_log self ↔
          ∃ d : nat, Z.of_nat d <= bound ∧ link_chain (PDFCrawler_init base_url bound) d url) ∧
  (∀ pdf, pdf ∈ pdf_urls self ↔
          ∃ url (d : nat),
            Z.of_nat d <= bound ∧ link_chain (PDFCrawler_init base_url bound) d url ∧
            pdf ∈ crawl_targets url ∧ is_pdf pdf = true) ∧
  (0 <= bound ->
   ∀ url, url ∈ visited_urls self ↔
          ∃ d : nat, Z.of_nat d <= bound + 1 ∧
                     link_chain (PDFCrawler_init base_url bound) d url).
Proof.
  intros Hcrawl. apply crawl_final in Hcrawl as Hr.
  destruct (bfs_inv_reaches _ _ _ _ Hr) as (done & Hinv).
  destruct Hinv as (Hb & Hroot & Hvis & Hnd & Hsort & Hbound & Hchain & Hlog & Hlinks).
  rewrite app_nil_r in *. simpl in Hlog, Hlinks, Hchain.
  set (self0 := PDFCrawler_init base_url bound) in *.
  assert (∀ n u, link_chain self0 n u -> Z.of_nat n <= bound + 1 ->
                 ∃ d, (u, d) ∈ done ∧ d <= Z.of_nat n) as Hcomplete.
  { induction 1 as [|n url link Hc IH Hlink]; intros Hn.
    - exists 0. split; [done|lia].
    - destruct IH as (d & Hd & Hdn); [lia|].
      destruct (Hlinks url d link Hd) as (d' & Hd' & ?); [lia|done|].
      exists d'. split; [done|lia]. }
  assert (∀ url, url ∈ get_log self ↔ ∃ d : nat, Z.of_nat d <= bound ∧ link_chain self0 d url)
    as Hfetched.
  { intros url. rewrite Hlog. split.
    - intros ([u d] & -> & [Hd Hu]%list_elem_of_filter)%list_elem_of_fmap. simpl in *.
      destruct (Hchain u d Hu) as [[? _] ?]. exists (Z.to_nat d). split; [lia|done].
    - intros (n & Hn & Hc). destruct (Hcomplete n url Hc) as (d & Hd & ?); [lia|].
      apply list_elem_of_fmap. exists (url, d). split; [done|].
      apply list_elem_of_filter. split; [simpl; lia|done]. }
  split; [exact Hfetched|]. split.
  - intros pdf. rewrite (inv_pdfs _ _ _ _ Hr). split.
    + intros (url & (d & ? & ?)%Hfetched & ? & ?). by exists url, d.
    + intros (url & d & ? & ? & ? & ?). exists url. split; [|done]. apply Hfetched. by exists d.
  - intros Hbound0 url. rewrite Hvis. split.
    + intros ([u d] & -> & Hu)%list_elem_of_fmap. simpl.
      destruct (Hchain u d Hu) as [[? ?] ?]. exists (Z.to_nat d). split; [lia|done].
    + intros (n & Hn & Hc). destruct (Hcomplete n url Hc Hn) as (d & Hd & ?).
      apply list_elem_of_fmap. by exists (url, d).
Qed.

End Bfs.

Section Reach.
Context {W : World}.

Lemma scan_link_fold_queue bd bp url vis hrefs :
  ∀ pdfs0 queue0 x,
    x ∈ joined url hrefs -> is_pdf x = false ->
    String.eqb (netloc x) bd = true -> startswith (path x) bp = true -> x ∉ vis ->
    x ∈ (scan_links bd bp url vis (pdfs0, queue0) hrefs).2.
Proof.
  assert (∀ hrefs pdfs0 queue0 x, x ∈ queue0 ->
            x ∈ (scan_links bd bp url vis (pdfs0, queue0) hrefs).2) as Hkeep.
  { intros hs pdfs0 queue0 x Hx.
    destruct (scan_link_fold bd bp url vis hs pdfs0 queue0) as [_ (new & -> & _)].
    apply elem_of_app. by left. }
  induction hrefs as [|href hrefs IH]; intros pdfs0 queue0 x Hx Hpdf Hnet Hpath Hvis.
  - by apply elem_of_nil in Hx.
  - destruct (urljoin url href) as [full_url|] eqn:Hjoin.
    2: { destruct (joined_cons_None url href hrefs Hjoin) as [Hnil _].
         rewrite Hnil in Hx. by apply elem_of_nil in Hx. }
    destruct (joined_cons_Some url href hrefs full_url Hjoin) as [Hcons _].
    rewrite Hcons in Hx. rewrite scan_links_cons. unfold scan_link. rewrite Hjoin.
    fold (is_pdf (split_0 "#" full_url)). apply elem_of_cons in Hx as [->|Hx].
    + rewrite Hpdf, Hnet, Hpath. rewrite bool_decide_eq_true_2 by done. simpl.
      apply Hkeep. apply elem_of_app. right. by apply list_elem_of_singleton.
    + destruct (is_pdf (split_0 "#" full_url)); [by apply IH|].
      destruct (_ && _ && _); by apply IH.
Qed.

(** The pages marked or waiting are reachable, and the links to follow of
    every page marked are marked or waiting. *)
Lemma scan_inv_closed b st :
  scan_reaches b st ->
  (b ∈ visited st ∨ b ∈ queue st) ∧
  (∀ u, u ∈ visited st ∨ u ∈ queue st -> scan_reachable b u) ∧
  (∀ u target, u ∈ visited st -> scan_follows b u target ->
               target ∈ visited st ∨ target ∈ queue st).
Proof.
  induction 1 as [|st st' Hr (Hroot & Hreach & Hclosed) Hit].
  - simpl. split; [right; by apply list_elem_of_singleton|]. split.
    + intros u [Hu|Hu]; [set_solver|]. apply list_elem_of_singleton in Hu as ->. constructor.
    + intros u target Hu. set_solver.
  - pose proof Hit as Hit'.
    apply scan_iteration_spec in Hit as (url & rest & Hq & Hcase).
    rewrite Hq in Hroot, Hreach, Hclosed.
    destruct Hcase as [[Hin ->]|(Hout & Hv & _ & _ & new & Hq' & Hnew)]; simpl.
    + split; [|split].
      * destruct Hroot as [?|[->|?]%elem_of_cons]; auto.
      * intros u [Hu|Hu]; apply Hreach; [by left|right; by apply elem_of_cons; right].
      * intros u target Hu Hf.
        destruct (Hclosed u target Hu Hf) as [?|[->|?]%elem_of_cons]; auto.
    + rewrite Hv, Hq'. split; [|split].
      * destruct Hroot as [?|[->|?]%elem_of_cons]; [left|left|right]; set_solver.
      * intros u [[->%elem_of_singleton|Hu]%elem_of_union|[Hu|Hu]%elem_of_app].
        -- apply Hreach. right. by apply elem_of_cons; left.
        -- apply Hreach. by left.
        -- apply Hreach. right. by apply elem_of_cons; right.
        -- destruct (Hnew u Hu) as (?&?&?&_).
           apply reachable_link with url; [|done].
           apply Hreach. right. by apply elem_of_cons; left.
      * intros u target [->%elem_of_singleton|Hu]%elem_of_union Hf.
        -- destruct (decide (target ∈ ({[url]} ∪ visited st : gset string))) as [?|Hnot];
             [by left|].
           right. rewrite <- Hq'. destruct Hf as (Ht & Hpdf & Hscope).
           unfold in_scope in Hscope. apply andb_true_iff in Hscope as [Hnet Hpath].
           revert Hit'. unfold scan_iteration. rewrite Hq.
           destruct (decide (url ∈ visited st)); [done|].
           unfold page_targets in Ht. destruct (session_get url) as [response|];
             [|by apply elem_of_nil in Ht].
           pose proof (scan_link_fold_queue (netloc b) (path b) url ({[url]} ∪ visited st)
                         (find_all_a_href (content response)) (pdfs st) rest target
                         Ht Hpdf Hnet Hpath Hnot) as Hin.
           destruct (scan_links _ _ _ _ _ _) as [pdfs1 queue1]. intros [= <-]. exact Hin.
        -- destruct (Hclosed u target Hu Hf) as [?|[->|?]%elem_of_cons].
           ++ left. set_solver.
           ++ left. set_solver.
           ++ right. apply elem_of_app. by left.
Qed.

(** X4. When [find_all_pdfs] returns, the pages it has visited are exactly the
    pages reachable from the start URL along links in scope that are no
    PDFs, each requested once, and the PDFs it returns are exactly the PDF
    links of those pages; the links of a page being those that the loop
    over its links gets to, up to the first [href] that [urljoin]
    refuses. *)
Theorem find_all_pdfs_reachable (base_url : string) (fuel : nat) (st : Scan) :
  find_all_pdfs fuel base_url = Some st ->
  (∀ url, url ∈ visited st ↔ scan_reachable base_url url) ∧
  (∀ pdf, pdf ∈ pdfs st ↔
          ∃ url, scan_reachable base_url url ∧ pdf ∈ page_targets url ∧ is_pdf pdf = true) ∧
  (∀ url, url ∈ scan_log st ↔ scan_reachable base_url url).
Proof.
  intros Hrun.
  destruct (scan_loop_reaches base_url fuel _ _ (scan_reaches_start base_url) Hrun)
    as [Hr Hempty].
  destruct (scan_inv_closed _ _ Hr) as (Hroot & Hreach & Hclosed).
  destruct (scan_inv_log _ _ Hr) as [_ Hlog].
  rewrite Hempty in *.
  assert (∀ url, url ∈ visited st ↔ scan_reachable base_url url) as Hvisited.
  { intros url. split; [intros; apply Hreach; by left|].
    induction 1 as [|u target _ IH Hf].
    - destruct Hroot as [?|?%elem_of_nil]; done.
    - destruct (Hclosed u target IH Hf) as [?|?%elem_of_nil]; done. }
  split; [exact Hvisited|]. split.
  - intros pdf. rewrite (scan_inv_pdfs _ _ Hr). split.
    + intros (url & Hu & ? & ?). exists url. split; [|done]. by apply Hvisited, Hlog.
    + intros (url & Hu & ? & ?). exists url. split; [|done]. by apply Hlog, Hvisited.
  - intros url. by rewrite Hlog.
Qed.

End Reach.


Section Scope.
Context {W : World}.


(** X5. Scope containment. At every point of a crawl, each URL marked visited
    other than the start URL is in scope (same [netloc] as the start URL,
    path starting with its path), is no PDF and carries no fragment; each
    URL in [pdf_urls] passes the [.pdf] test and carries no fragment. The
    same holds of [find_all_pdfs], of the URLs visited or waiting and of
    [pdfs]. *)
Theorem visited_in_scope (base_url : string) (bound : Z) :
  (∀ self queue,
     crawl_reaches (PDFCrawler_init base_url bound) self queue ->
     (∀ url, url ∈ visited_urls self ->
             url = base_url ∨
             in_scope base_url url = true ∧ is_pdf url = false ∧ split_0 "#" url = url) ∧
     (∀ pdf, pdf ∈ pdf_urls self -> is_pdf pdf = true ∧ split_0 "#" pdf = pdf)) ∧
  (∀ st,
     scan_reaches base_url st ->
     (∀ url, url ∈ visited st ∨ url ∈ queue st ->
             url = base_url ∨
             in_scope base_url url = true ∧ is_pdf url = false ∧ split_0 "#" url = url) ∧
     (∀ pdf, pdf ∈ pdfs st -> is_pdf pdf = true ∧ split_0 "#" pdf = pdf)).
Proof.
  split.
  - intros self queue Hr. split.
    + intros url Hu.
      destruct (bfs_inv_reaches _ _ _ _ Hr) as (taken & Hinv).
      destruct Hinv as (Hb & Hroot & Hvis & Hnd & Hsort & Hbound & Hchain & Hrest).
      apply Hvis in Hu. apply list_elem_of_fmap in Hu as ([u d] & Heq & Hp).
      simpl in Heq. destruct (Hchain u d Hp) as [_ Hc]. rewrite <- Heq in Hc. clear Heq Hp.
      inversion Hc as [|n page link _ Hlink]; subst; [by left|right].
      destruct (get_page_links_spec (PDFCrawler_init base_url bound) page) as (_&_&_&Hlinks&_).
      apply Hlinks in Hlink as (Ht & Hpdf & Hvalid).
      rewrite (is_valid_url_in_scope base_url bound) in Hvalid by apply same_base_refl.
      split; [done|]. split; [done|].
      by apply (page_targets_fragment_free page), crawl_targets_page_targets,
        crawl_links_targets.
    + intros pdf (url & _ & Ht & Hpdf)%(inv_pdfs _ _ _ _ Hr).
      split; [done|]. by apply (page_targets_fragment_free url), crawl_targets_page_targets.
  - intros st Hr. split.
    + intros url Hu. destruct (scan_inv_closed _ _ Hr) as (_ & Hreach & _).
      destruct (Hreach url Hu) as [|page target _ (Ht & Hpdf & Hscope)]; [by left|right].
      split; [done|]. split; [done|]. by apply (page_targets_fragment_free page).
    + intros pdf (url & _ & Ht & Hpdf)%(scan_inv_pdfs _ _ Hr).
      split; [done|]. by apply (page_targets_fragment_free url).
Qed.

(** X6. Nothing found is lost. From any state of the loop of [crawl] to the
    state it ends in, [visited_urls] and [pdf_urls] only grow and the fetch
    log is only extended; likewise [visited], [pdfs] and the log of
    [find_all_pdfs]. *)
Theorem results_only_grow :
  (∀ fuel self queue self',
     crawl_loop fuel self queue = Some self' ->
     visited_urls self ⊆ visited_urls self' ∧ pdf_urls self ⊆ pdf_urls self' ∧
     get_log self `prefix_of` get_log self') ∧
  (∀ fuel base_url st st',
     scan_loop fuel base_url st = Some st' ->
     visited st ⊆ visited st' ∧ pdfs st ⊆ pdfs st' ∧ scan_log st `prefix_of` scan_log st').
Proof.
  split.
  - induction fuel as [|fuel IH]; intros self queue self' Hloop; [done|].
    simpl in Hloop. destruct (crawl_iteration self queue) as [[self1 queue1]|] eqn:Hit.
    + destruct (IH _ _ _ Hloop) as (Hv & Hp & Hl).
      apply crawl_iteration_spec in Hit as (url & depth & rest & -> & Hcase).
      destruct Hcase as [(_ & -> & ->)|(_ & new & _ & Hlog & Hpdf & _ & _ & Hvis & _)]; [done|].
      split; [rewrite <- Hv, Hvis; set_solver|]. split.
      * intros x Hx. apply Hp, Hpdf. by left.
      * etrans; [|exact Hl]. rewrite Hlog. by apply prefix_app_r.
    + by simplify_eq.
  - induction fuel as [|fuel IH]; intros base_url st st' Hloop; [done|].
    simpl in Hloop. destruct (scan_iteration base_url st) as [st1|] eqn:Hit.
    + destruct (IH _ _ _ Hloop) as (Hv & Hp & Hl).
      apply scan_iteration_spec in Hit as (url & rest & _ & Hcase).
      destruct Hcase as [[_ ->]|(_ & Hvis & Hlog & Hpdf & _)]; [done|].
      split; [rewrite <- Hv, Hvis; set_solver|]. split.
      * intros x Hx. apply Hp, Hpdf. by left.
      * etrans; [|exact Hl]. rewrite Hlog. by apply prefix_app_r.
    + by simplify_eq.
Qed.

End Scope.

Lemma contains_cons (c a : ascii) (s : string) :
  contains c (String a s) = Ascii.eqb c a || contains c s.
Proof. reflexivity. Qed.

Lemma contains_append (c : ascii) (s t : string) :
  contains c (s +:+ t) = contains c s || contains c t.
Proof.
  induction s as [|a s IH]; [done|].
  rewrite append_cons, !contains_cons, IH. by rewrite orb_assoc.
Qed.

Lemma append_assoc (s t u : string) : (s +:+ t) +:+ u = s +:+ t +:+ u.
Proof. induction s as [|c s IH]; [done|]. by rewrite !append_cons, IH. Qed.













Section Naming.
Context {W : World}.





End Naming.

(** ** One search against another *)

Section Compare.
Context {W : World}.

Lemma page_link_in_scope b m url link :
  link ∈ (get_page_links (PDFCrawler_init b m) url).1 ↔
  link ∈ crawl_links url ∧ is_pdf link = false ∧ in_scope b link = true.
Proof.
  destruct (get_page_links_spec (PDFCrawler_init b m) url) as (_ & _ & _ & Hlinks & _).
  rewrite Hlinks, (is_valid_url_in_scope b m); [done|apply same_base_refl].
Qed.

(** The chains of links are the same at every depth bound. *)
Lemma link_chain_bound b m m' d u :
  link_chain (PDFCrawler_init b m) d u -> link_chain (PDFCrawler_init b m') d u.
Proof.
  induction 1 as [|d url link _ IH Hlink]; [apply (chain_root (PDFCrawler_init b m'))|].
  apply (chain_link _ d url); [done|]. by apply page_link_in_scope, (page_link_in_scope b m).
Qed.

(** What the crawler can come to, the finder can come to. *)
Lemma link_chain_reachable b m d u :
  link_chain (PDFCrawler_init b m) d u -> scan_reachable b u.
Proof.
  induction 1 as [|d url link _ IH Hlink]; [constructor|].
  apply page_link_in_scope in Hlink as (Ht & Hpdf & Hscope).
  apply (reachable_link b url); [done|].
  split; [by apply crawl_targets_page_targets, crawl_links_targets|done].
Qed.

(** At the end of a crawl every URL marked visited is at the end of a
    chain of at most [max_depth + 1] links, and of no link when
    [max_depth] is negative; every URL that near has been marked, and
    fetched if it is at most [max_depth] links away. *)
Lemma crawl_final_chains b m self :
  crawl_reaches (PDFCrawler_init b m) self [] ->
  (∀ u, u ∈ visited_urls self ->
        ∃ d : nat, Z.of_nat d <= Z.max 0 (m + 1) ∧ link_chain (PDFCrawler_init b m) d u) ∧
  (∀ (d : nat) u, link_chain (PDFCrawler_init b m) d u ->
                  (Z.of_nat d <= m + 1 -> u ∈ visited_urls self) ∧
                  (Z.of_nat d <= m -> u ∈ get_log self)).
Proof.
  intros Hr. destruct (bfs_inv_reaches _ _ _ _ Hr) as (done & Hinv).
  destruct Hinv as (Hb & Hroot & Hvis & Hnd & Hsort & Hbound & Hchain & Hlog & Hlinks).
  rewrite app_nil_r in *. simpl in Hlog, Hlinks, Hchain.
  set (self0 := PDFCrawler_init b m) in *.
  assert (∀ n u, link_chain self0 n u -> Z.of_nat n <= m + 1 ->
                 ∃ d, (u, d) ∈ done ∧ d <= Z.of_nat n) as Hcomplete.
  { induction 1 as [|n url link Hc IH Hlink]; intros Hn.
    - exists 0. split; [done|lia].
    - destruct IH as (d & Hd & Hdn); [lia|].
      destruct (Hlinks url d link Hd) as (d' & Hd' & ?); [lia|done|].
      exists d'. split; [done|lia]. }
  split.
  - intros u ([u' d] & -> & Hu)%Hvis%list_elem_of_fmap. simpl.
    destruct (Hchain u' d Hu) as [[? ?] ?]. exists (Z.to_nat d). split; [lia|done].
  - intros n u Hc. split; intros Hn.
    + destruct (Hcomplete n u Hc Hn) as (d & Hd & _).
      apply Hvis, list_elem_of_fmap. by exists (u, d).
    + destruct (Hcomplete n u Hc) as (d & Hd & ?); [lia|].
      rewrite Hlog. apply list_elem_of_fmap. exists (u, d). split; [done|].
      apply list_elem_of_filter. split; [simpl; lia|done].
Qed.

(** When [find_all_pdfs] has returned, every reachable page is visited. *)
Lemma scan_final_visited b fuel st :
  find_all_pdfs fuel b = Some st ->
  scan_reaches b st ∧ ∀ u, scan_reachable b u -> u ∈ visited st.
Proof.
  intros Hrun.
  destruct (scan_loop_reaches b fuel _ _ (scan_reaches_start b) Hrun) as [Hr Hempty].
  split; [done|].
  destruct (scan_inv_closed _ _ Hr) as (Hroot & _ & Hclosed). rewrite Hempty in *.
  induction 1 as [|u target _ IH Hf].
  - destruct Hroot as [?|?%elem_of_nil]; done.
  - destruct (Hclosed u target IH Hf) as [?|?%elem_of_nil]; done.
Qed.

(** X13. The finder finds what the crawler finds. When both searches of a
    site return, every URL that [PDFCrawler.crawl] has marked visited, at
    whatever depth bound, is among the pages that [find_all_pdfs] has
    visited, and every PDF of the crawler is among the PDFs of the
    finder. *)
Theorem finder_subsumes_crawler (base_url : string) (bound : Z) (fuel fuel' : nat)
    (self : PDFCrawler) (st : Scan) :
  crawl fuel (PDFCrawler_init base_url bound) = Some self ->
  find_all_pdfs fuel' base_url = Some st ->
  visited_urls self ⊆ visited st ∧ pdf_urls self ⊆ pdfs st.
Proof.
  intros Hcrawl Hscan. apply crawl_final in Hcrawl as Hr.
  destruct (crawl_final_chains _ _ _ Hr) as [Hchain _].
  destruct (scan_final_visited _ _ _ Hscan) as [Hs Hvisited].
  destruct (inv_visited _ _ _ _ Hr) as (_ & _ & Hlog & _).
  assert (Hsub : ∀ u, u ∈ visited_urls self -> u ∈ visited st).
  { intros u (d & _ & Hc)%Hchain. by eapply Hvisited, link_chain_reachable. }
  split; [exact Hsub|].
  intros pdf (url & Hu & Ht & Hpdf)%(inv_pdfs _ _ _ _ Hr).
  apply (scan_inv_pdfs _ _ Hs). exists url.
  split; [|split; [by apply crawl_targets_page_targets|done]].
  by apply (scan_inv_log _ _ Hs), Hsub, Hlog.
Qed.

(** X14. A deeper crawl finds more. Of two finished crawls from the same
    start URL, the one with the larger [max_depth] has fetched every page
    the other has fetched, has marked every URL the other has marked, and
    has found every PDF the other has found. *)
Theorem deeper_crawl_finds_more (base_url : string) (bound bound' : Z) (fuel fuel' : nat)
    (self self' : PDFCrawler) :
  bound <= bound' ->
  crawl fuel (PDFCrawler_init base_url bound) = Some self ->
  crawl fuel' (PDFCrawler_init base_url bound') = Some self' ->
  (∀ url, url ∈ get_log self -> url ∈ get_log self') ∧
  visited_urls self ⊆ visited_urls self' ∧
  pdf_urls self ⊆ pdf_urls self'.
Proof.
  intros Hle Hcrawl Hcrawl'.
  apply crawl_final in Hcrawl as Hr. apply crawl_final in Hcrawl' as Hr'.
  destruct (crawl_final_chains _ _ _ Hr) as [Hchain _].
  destruct (crawl_final_chains _ _ _ Hr') as [_ Hcomplete].
  destruct (inv_chain _ _ _ _ Hr) as [_ Hfetched].
  assert (Hlog : ∀ url, url ∈ get_log self -> url ∈ get_log self').
  { intros url (d & Hd & Hc)%Hfetched.
    apply (Hcomplete d url); [by apply (link_chain_bound base_url bound)|lia]. }
  split; [exact Hlog|]. split.
  - intros u (d & Hd & Hc)%Hchain.
    destruct (decide (0 <= bound)) as [Hpos|Hneg].
    + apply (Hcomplete d u); [by apply (link_chain_bound base_url bound)|lia].
    + assert (d = 0%nat) as -> by lia. inversion Hc; subst. simpl.
      by destruct (inv_visited _ _ _ _ Hr') as (Hroot & _).
  - intros pdf (url & Hu & Ht & Hpdf)%(inv_pdfs _ _ _ _ Hr).
    apply (inv_pdfs _ _ _ _ Hr'). exists url. split; [by apply Hlog|done].
Qed.

End Compare.

(** ** The counts of pages *)

Lemma length_NoDup_subset (l : list string) (X : gset string) :
  NoDup l -> (∀ x, x ∈ l -> x ∈ X) -> (length l <= size X)%nat.
Proof.
  intros Hnd Hsub. rewrite <- (size_list_to_set (C := gset string) l Hnd).
  apply subseteq_size. intros x Hx. apply Hsub. by apply elem_of_list_to_set in Hx.
Qed.

Section Counts.
Context {W : World}.

(** X15. The counts of pages. The number that [find_all_pdfs] reports as
    pages scanned, [len(visited)], is at every point of its loop the number
    of requests it has made; the number that [crawl] reports as pages
    crawled and [run_crawler] as pages scanned, [len(visited_urls)], is at
    every point at least the number of requests made. *)
Theorem pages_counted (base_url : string) (bound : Z) :
  (∀ st, scan_reaches base_url st -> size (visited st) = length (scan_log st)) ∧
  (∀ self queue, crawl_reaches (PDFCrawler_init base_url bound) self queue ->
                 (length (get_log self) <= pages_scanned self)%nat).
Proof.
  split.
  - intros st Hr. destruct (scan_inv_log _ _ Hr) as [Hnd Hlog].
    rewrite <- (size_list_to_set (C := gset string) (scan_log st) Hnd).
    f_equal. apply set_eq. intros u. by rewrite elem_of_list_to_set, Hlog.
  - intros self queue Hr. destruct (inv_visited _ _ _ _ Hr) as (_ & _ & Hlog & Hnd).
    apply NoDup_app in Hnd as (Hnd & _). by apply length_NoDup_subset.
Qed.

End Counts.

(** ** The list file *)

Lemma list_ascii_of_string_append (s t : string) :
  list_ascii_of_string (s +:+ t) = list_ascii_of_string s ++ list_ascii_of_string t.
Proof. induction s as [|a s IH]; [done|]. simpl. by rewrite IH. Qed.

Lemma append_empty_r (s : string) : s +:+ "" = s.
Proof. induction s as [|a s IH]; [done|]. by rewrite append_cons, IH. Qed.

Lemma foldl_write (l : list string) (text : string) :
  foldl (λ text pdf_url, text +:+ pdf_url +:+ String LF "") text l
  = text +:+ foldr (λ pdf_url rest, pdf_url +:+ String LF rest) "" l.
Proof.
  revert text. induction l as [|u l IH]; intros text; simpl.
  - by rewrite append_empty_r.
  - rewrite IH, !append_assoc. simpl. reflexivity.
Qed.

Lemma readlines_line (u rest : string) :
  contains LF u = false -> contains CR u = false ->
  readlines (u +:+ String LF rest) = (u +:+ String LF "") :: readlines rest.
Proof.
  induction u as [|a u IH]; intros Hlf Hcr; [done|].
  rewrite contains_cons in Hlf, Hcr.
  apply orb_false_iff in Hlf as [Ha Hlf], Hcr as [Ha' Hcr].
  rewrite Ascii.eqb_sym in Ha. rewrite Ascii.eqb_sym in Ha'.
  change (readlines (String a u +:+ String LF rest))
    with (if Ascii.eqb a LF then String LF "" :: readlines (u +:+ String LF rest)
          else if Ascii.eqb a CR then
            String LF "" :: match u +:+ String LF rest with
                            | String c' rest' =>
                                if Ascii.eqb c' LF then readlines rest'
                                else readlines (u +:+ String LF rest)
                            | EmptyString => []
                            end
          else match readlines (u +:+ String LF rest) with
               | [] => [String a ""]
               | line :: lines => String a line :: lines
               end).
  rewrite Ha, Ha', IH by done. reflexivity.
Qed.

Lemma strip_head_cases sp2 sp3 (l : list ascii) :
  strip_head sp2 sp3 l = l ∨ (length (strip_head sp2 sp3 l) < length l)%nat.
Proof.
  remember (length l) as n eqn:Hn. revert l Hn.
  induction n as [n IH] using lt_wf_ind. intros l ->.
  assert (Hle : ∀ l', (length l' < length l)%nat ->
                      (length (strip_head sp2 sp3 l') <= length l')%nat).
  { intros l' Hl'. destruct (IH _ Hl' l' eq_refl) as [->|]; lia. }
  destruct l as [|a [|b [|c l3]]]; simpl in *.
  - by left.
  - destruct (isspace_1 a); [right; simpl; lia|by left].
  - destruct (isspace_1 a).
    + right. destruct (isspace_1 b); simpl; lia.
    + destruct (sp2 a b); [right; simpl; lia|by left].
  - destruct (isspace_1 a).
    + right. specialize (Hle (b :: c :: l3)). simpl in Hle.
      assert (length (strip_head sp2 sp3 (b :: c :: l3)) <= S (S (length l3)))%nat
        by (apply Hle; lia).
      simpl in *. lia.
    + destruct (sp2 a b).
      * right. specialize (Hle (c :: l3)). simpl in Hle.
        assert (length (strip_head sp2 sp3 (c :: l3)) <= S (length l3))%nat
          by (apply Hle; lia).
        simpl in *. lia.
      * destruct (sp3 a b c); [|by left].
        right. specialize (Hle l3).
        assert (length (strip_head sp2 sp3 l3) <= length l3)%nat by (apply Hle; lia).
        lia.
Qed.

Lemma strip_head_length sp2 sp3 (l : list ascii) :
  (length (strip_head sp2 sp3 l) <= length l)%nat.
Proof. destruct (strip_head_cases sp2 sp3 l) as [->|]; lia. Qed.

Lemma rstrip_length (l : list ascii) : (length (rstrip l) <= length l)%nat.
Proof.
  unfold rstrip. rewrite length_reverse.
  etransitivity; [apply strip_head_length|]. by rewrite length_reverse.
Qed.

Lemma rstrip_cases (l : list ascii) : rstrip l = l ∨ (length (rstrip l) < length l)%nat.
Proof.
  unfold rstrip.
  destruct (strip_head_cases (λ b a, isspace_2 a b) (λ c b a, isspace_3 a b c) (reverse l))
    as [->|Hlt].
  - left. apply reverse_involutive.
  - right. rewrite length_reverse. by rewrite length_reverse in Hlt.
Qed.

Lemma rstrip_line (l : list ascii) : rstrip (l ++ [LF]) = rstrip l.
Proof. unfold rstrip. by rewrite reverse_snoc. Qed.

Lemma isspace_2_LF a : isspace_2 a LF = false.
Proof. unfold isspace_2. by rewrite andb_false_r. Qed.

Lemma isspace_3_LF a b : isspace_3 a b LF = false.
Proof.
  unfold isspace_3. cbn -[Nat.eqb nat_of_ascii Nat.leb].
  change (nat_of_ascii LF) with 10%nat.
  change (10 =? 128)%nat with false. change (10 =? 159)%nat with false.
  change (128 <=? 10)%nat with false. change (10 =? 168)%nat with false.
  change (10 =? 169)%nat with false. change (10 =? 175)%nat with false.
  by rewrite !andb_false_r.
Qed.

Lemma strip_head_cons sp2 sp3 (a : ascii) (l1 : list ascii) :
  strip_head sp2 sp3 (a :: l1)
  = if isspace_1 a then strip_head sp2 sp3 l1
    else match l1 with
         | [] => a :: l1
         | b :: l2 =>
             if sp2 a b then strip_head sp2 sp3 l2
             else match l2 with
                  | [] => a :: l1
                  | c :: l3 => if sp3 a b c then strip_head sp2 sp3 l3 else a :: l1
                  end
         end.
Proof. reflexivity. Qed.

Lemma lstrip_line (l : list ascii) : l ≠ [] -> lstrip l = l -> lstrip (l ++ [LF]) = l ++ [LF].
Proof.
  unfold lstrip. intros Hne Hl.
  assert (Hshort : ∀ l', (length l' < length l)%nat -> strip_head isspace_2 isspace_3 l' ≠ l).
  { intros l' Hl' Heq. pose proof (strip_head_length isspace_2 isspace_3 l') as Hlen.
    rewrite Heq in Hlen. lia. }
  destruct l as [|a l1]; [done|].
  rewrite strip_head_cons in Hl.
  change ((a :: l1) ++ [LF]) with (a :: (l1 ++ [LF])). rewrite strip_head_cons.
  destruct (isspace_1 a).
  { exfalso. apply (Hshort l1); [simpl; lia|done]. }
  destruct l1 as [|b l2]; cbn [app].
  { by rewrite isspace_2_LF. }
  destruct (isspace_2 a b).
  { exfalso. apply (Hshort l2); [simpl; lia|done]. }
  destruct l2 as [|c l3]; cbn [app].
  { by rewrite isspace_3_LF. }
  destruct (isspace_3 a b c); [|done].
  exfalso. apply (Hshort l3); [simpl; lia|done].
Qed.

Lemma strip_fixed (s : string) :
  strip s = s ->
  lstrip (list_ascii_of_string s) = list_ascii_of_string s ∧
  rstrip (list_ascii_of_string s) = list_ascii_of_string s.
Proof.
  unfold strip. intros Hs.
  apply (f_equal list_ascii_of_string) in Hs.
  rewrite list_ascii_of_string_of_list_ascii in Hs.
  set (l := list_ascii_of_string s) in *.
  assert (Hl : lstrip l = l).
  { destruct (strip_head_cases isspace_2 isspace_3 l) as [|Hlt]; [done|].
    pose proof (rstrip_length (lstrip l)) as Hlen. rewrite Hs in Hlen.
    unfold lstrip in Hlen. lia. }
  split; [done|]. by rewrite Hl in Hs.
Qed.

Lemma strip_line (u : string) : u ≠ "" -> strip u = u -> strip (u +:+ String LF "") = u.
Proof.
  intros Hne Hu. pose proof (strip_fixed u Hu) as [Hl Hr].
  unfold strip. rewrite list_ascii_of_string_append. simpl.
  rewrite lstrip_line, rstrip_line, Hr; [apply string_of_list_ascii_of_string| |done].
  by destruct u.
Qed.

Lemma startswith_line (u : string) (a : ascii) :
  u ≠ "" -> startswith (u +:+ String LF "") (String a "") = startswith u (String a "").
Proof.
  destruct u as [|b u]; [done|]. intros _. simpl.
  destruct (Ascii.eqb b a); [|done]. by destruct u.
Qed.

Lemma read_lines_written (keep : string -> bool) (l : list string) :
  Forall survives_list l ->
  Forall (λ url, keep (url +:+ String LF "") = true) l ->
  strip <$> List.filter (λ line, negb (String.eqb (strip line) "") && keep line)
              (readlines (foldr (λ pdf_url rest, pdf_url +:+ String LF rest) "" l))
  = l.
Proof.
  induction 1 as [|u l (Hne & Hstrip & Hlf & Hcr) Hl IH]; intros Hkeep; [done|].
  apply Forall_cons in Hkeep as [Hu Hkeep].
  assert (Hne' : String.eqb u "" = false) by (by apply String.eqb_neq).
  cbn [foldr]. rewrite readlines_line by done. cbn [List.filter].
  rewrite (strip_line u Hne Hstrip), Hu, Hne'. cbn [negb andb].
  rewrite fmap_cons, (strip_line u Hne Hstrip). f_equal. by apply IH.
Qed.

Lemma saved_list_read_back (keep : string -> bool) (pdf_urls : gset string) :
  (∀ url, url ∈ pdf_urls -> survives_list url ∧ keep (url +:+ String LF "") = true) ->
  strip <$> List.filter (λ line, negb (String.eqb (strip line) "") && keep line)
              (readlines (save_pdf_list pdf_urls))
  = sorted pdf_urls.
Proof.
  intros Hall. unfold save_pdf_list. rewrite foldl_write, append_nil.
  assert (Hin : ∀ url, url ∈ sorted pdf_urls -> url ∈ pdf_urls).
  { intros url Hu. unfold sorted in Hu. rewrite merge_sort_Permutation in Hu.
    by apply elem_of_elements. }
  apply read_lines_written; apply Forall_forall; intros url Hu; by apply Hall, Hin.
Qed.

Lemma read_pdf_list_keep_all (text : string) :
  read_pdf_list text
  = strip <$> List.filter (λ line, negb (String.eqb (strip line) "") && true) (readlines text).
Proof.
  unfold read_pdf_list. f_equal. apply filter_ext. intros line. by rewrite andb_true_r.
Qed.

(** X8. The list file read back. A set of URLs written by [save_pdf_list],
    all of them surviving, is read back by [view_pdf_list] as the sorted
    list of the set, and by [download_from_file] too when none of them
    starts with [#]. *)
Theorem pdf_list_round_trip (pdf_urls : gset string) :
  (∀ url, url ∈ pdf_urls -> survives_list url) ->
  read_pdf_list (save_pdf_list pdf_urls) = sorted pdf_urls ∧
  ((∀ url, url ∈ pdf_urls -> startswith url "#" = false) ->
   read_urls (save_pdf_list pdf_urls) = sorted pdf_urls).
Proof.
  intros Hall. split.
  - rewrite read_pdf_list_keep_all.
    apply (saved_list_read_back (λ _, true)). intros url Hu. split; [by apply Hall|done].
  - intros Hhash.
    apply (saved_list_read_back (λ line, negb (startswith line "#"))).
    intros url Hu. split; [by apply Hall|].
    destruct (Hall url Hu) as (Hne & _). by rewrite startswith_line, Hhash.
Qed.

(** ** The list of a crawl *)

Lemma lower_ascii_f (c : ascii) :
  lower_ascii c = "f"%char -> isspace_1 c = false ∧ (nat_of_ascii c <? 128)%nat = true.
Proof.
  destruct c as [[] [] [] [] [] [] [] []]; intros H; vm_compute in H; try discriminate H;
    by split.
Qed.

Lemma is_pdf_last (url : string) :
  is_pdf url = true -> ∃ p c, url = p +:+ String c "" ∧ lower_ascii c = "f"%char.
Proof.
  unfold is_pdf. induction url as [|a url IH]; [done|].
  change (lower (String a url)) with (String (lower_ascii a) (lower url)).
  rewrite endswith_unfold.
  destruct (String.eqb_spec (String (lower_ascii a) (lower url)) ".pdf") as [Heq|_].
  - intros _. destruct url as [|b [|c [|d [|e url]]]]; try discriminate Heq.
    injection Heq as _ _ _ Hd. by exists (String a (String b (String c ""))), d.
  - intros (p & c & -> & Hc)%IH. by exists (String a p), c.
Qed.

Lemma rstrip_ascii_end (p : list ascii) (c : ascii) :
  isspace_1 c = false -> (nat_of_ascii c <? 128)%nat = true -> rstrip (p ++ [c]) = p ++ [c].
Proof.
  intros Hsp Hc. apply Nat.ltb_lt in Hc.
  unfold rstrip. rewrite reverse_snoc, strip_head_cons, Hsp.
  assert (H2 : ∀ b, isspace_2 b c = false).
  { intros b. unfold isspace_2.
    destruct (Nat.eqb_spec (nat_of_ascii c) 133); [lia|].
    destruct (Nat.eqb_spec (nat_of_ascii c) 160); [lia|]. apply andb_false_r. }
  assert (H3 : ∀ a b, isspace_3 a b c = false).
  { intros a b. unfold isspace_3. cbn -[Nat.eqb Nat.leb nat_of_ascii].
    destruct (Nat.eqb_spec (nat_of_ascii c) 128); [lia|].
    destruct (Nat.eqb_spec (nat_of_ascii c) 159); [lia|].
    destruct (Nat.eqb_spec (nat_of_ascii c) 168); [lia|].
    destruct (Nat.eqb_spec (nat_of_ascii c) 169); [lia|].
    destruct (Nat.eqb_spec (nat_of_ascii c) 175); [lia|].
    destruct (Nat.leb_spec 128 (nat_of_ascii c)); [lia|].
    by rewrite !andb_false_r. }
  assert (Hback : reverse (c :: reverse p) = p ++ [c]).
  { by rewrite reverse_cons, reverse_involutive. }
  destruct (reverse p) as [|b [|a l3]]; [done| |]; rewrite H2; [done|].
  by rewrite H3.
Qed.

Lemma is_pdf_survives (url : string) :
  is_pdf url = true ->
  lstrip (list_ascii_of_string url) = list_ascii_of_string url ->
  url ≠ "" ∧ strip url = url.
Proof.
  intros Hpdf Hl. split; [by intros ->|].
  destruct (is_pdf_last url Hpdf) as (p & c & -> & [Hsp Hc]%lower_ascii_f).
  unfold strip. rewrite Hl, list_ascii_of_string_append.
  change (list_ascii_of_string (String c "")) with [c].
  rewrite rstrip_ascii_end by done.
  change [c] with (list_ascii_of_string (String c "")).
  rewrite <- list_ascii_of_string_append.
  apply string_of_list_ascii_of_string.
Qed.

Lemma no_fragment_no_hash (url : string) : split_0 "#" url = url -> startswith url "#" = false.
Proof. destruct url as [|a url]; [done|]. simpl. by destruct (Ascii.eqb a "#"). Qed.

Section CrawlList.
Context {W : World}.

(** X9. The list of a crawl read back. The PDFs of a finished crawl, saved by
    [save_pdf_list], are read back by [download_from_file] and by
    [view_pdf_list] as [sorted(pdf_urls)], provided that no URL among them
    starts with white space or holds a line end: that they are not empty,
    end in no white space and start with no [#] the crawl guarantees. *)
Theorem crawl_list_read_back (base_url : string) (bound : Z) (fuel : nat) (self : PDFCrawler) :
  crawl fuel (PDFCrawler_init base_url bound) = Some self ->
  (∀ pdf, pdf ∈ pdf_urls self ->
          lstrip (list_ascii_of_string pdf) = list_ascii_of_string pdf ∧
          contains LF pdf = false ∧ contains CR pdf = false) ->
  read_urls (save_pdf_list (pdf_urls self)) = sorted (pdf_urls self) ∧
  read_pdf_list (save_pdf_list (pdf_urls self)) = sorted (pdf_urls self).
Proof.
  intros Hrun Hclean.
  pose proof (crawl_final _ _ _ Hrun) as Hreach.
  assert (Hall : ∀ url, url ∈ pdf_urls self ->
                        survives_list url ∧ startswith url "#" = false).
  { intros pdf Hu. destruct (Hclean pdf Hu) as (Hl & Hlf & Hcr).
    apply (inv_pdfs _ _ _ _ Hreach) in Hu as (url & _ & Ht & Hpdf).
    destruct (is_pdf_survives pdf Hpdf Hl) as [Hne Hstrip].
    split; [by repeat split|].
    by apply no_fragment_no_hash, (page_targets_fragment_free url), crawl_targets_page_targets. }
  split.
  - apply (saved_list_read_back (λ line, negb (startswith line "#"))).
    intros url Hu. destruct (Hall url Hu) as [Hs Hhash]. split; [done|].
    destruct Hs as (Hne & _). by rewrite startswith_line, Hhash.
  - rewrite read_pdf_list_keep_all.
    apply (saved_list_read_back (λ _, true)). intros url Hu. split; [by apply Hall|done].
Qed.

End CrawlList.

(** ** Dates of sessions *)

Lemma digit_compare (i j : Z) :
  0 <= i < 10 -> 0 <= j < 10 -> Ascii.compare (digit i) (digit j) = (i ?= j).
Proof.
  intros Hi Hj.
  assert (Ei : i = 0 ∨ i = 1 ∨ i = 2 ∨ i = 3 ∨ i = 4 ∨ i = 5 ∨ i = 6 ∨ i = 7 ∨ i = 8 ∨ i = 9)
    by lia.
  assert (Ej : j = 0 ∨ j = 1 ∨ j = 2 ∨ j = 3 ∨ j = 4 ∨ j = 5 ∨ j = 6 ∨ j = 7 ∨ j = 8 ∨ j = 9)
    by lia.
  destruct_or!; subst; reflexivity.
Qed.

Lemma compare_cons (a b : ascii) (s t : string) :
  String.compare (String a s) (String b t)
  = match Ascii.compare a b with Eq => String.compare s t | Lt => Lt | Gt => Gt end.
Proof. reflexivity. Qed.

Lemma compare_digit (i j : Z) (s t : string) :
  0 <= i < 10 -> 0 <= j < 10 ->
  String.compare (String (digit i) s) (String (digit j) t)
  = match i ?= j with Eq => String.compare s t | Lt => Lt | Gt => Gt end.
Proof. intros Hi Hj. by rewrite compare_cons, digit_compare. Qed.

Lemma compare_same (a : ascii) (s t : string) :
  String.compare (String a s) (String a t) = String.compare s t.
Proof.
  rewrite compare_cons. unfold Ascii.compare. by rewrite N.compare_refl.
Qed.

Lemma decimal_digit (n k : Z) : 0 <= n / k mod 10 < 10.
Proof. apply Z.mod_pos_bound. lia. Qed.

Lemma mod_digit (n : Z) : 0 <= n mod 10 < 10.
Proof. apply Z.mod_pos_bound. lia. Qed.

Lemma four_digits_value (n : Z) :
  0 <= n <= 9999 ->
  n = 1000 * (n / 1000 mod 10) + 100 * (n / 100 mod 10) + 10 * (n / 10 mod 10) + n mod 10.
Proof. intros Hn. Z.div_mod_to_equations. lia. Qed.

Lemma two_digits_value (n : Z) : 0 <= n <= 99 -> n = 10 * (n / 10 mod 10) + n mod 10.
Proof. intros Hn. Z.div_mod_to_equations. lia. Qed.

(** The dates of two days compare as texts the way the days compare,
    whatever follows the first. *)
Lemma date_compare (d cutoff : Date) (rest : string) :
  calendar_day d -> calendar_day cutoff ->
  String.ltb (strftime_date d +:+ rest) (strftime_date cutoff) = true ↔ earlier d cutoff.
Proof.
  destruct d as [y m dd], cutoff as [cy cm cd].
  unfold calendar_day, earlier, strftime_date, four_digits, two_digits, String.ltb.
  cbn [year month day].
  intros (Hy & Hm & Hd) (Hcy & Hcm & Hcd).
  pose proof (four_digits_value y ltac:(lia)) as Ey.
  pose proof (four_digits_value cy ltac:(lia)) as Ecy.
  pose proof (two_digits_value m ltac:(lia)) as Em.
  pose proof (two_digits_value cm ltac:(lia)) as Ecm.
  pose proof (two_digits_value dd ltac:(lia)) as Ed.
  pose proof (two_digits_value cd ltac:(lia)) as Ecd.
  pose proof (decimal_digit y 1000) as Hy3. pose proof (decimal_digit y 100) as Hy2.
  pose proof (decimal_digit y 10) as Hy1. pose proof (mod_digit y) as Hy0.
  pose proof (decimal_digit cy 1000) as Hcy3. pose proof (decimal_digit cy 100) as Hcy2.
  pose proof (decimal_digit cy 10) as Hcy1. pose proof (mod_digit cy) as Hcy0.
  pose proof (decimal_digit m 10) as Hm1. pose proof (mod_digit m) as Hm0.
  pose proof (decimal_digit cm 10) as Hcm1. pose proof (mod_digit cm) as Hcm0.
  pose proof (decimal_digit dd 10) as Hd1. pose proof (mod_digit dd) as Hd0.
  pose proof (decimal_digit cd 10) as Hcd1. pose proof (mod_digit cd) as Hcd0.
  set (y3 := y / 1000 mod 10) in *. set (y2 := y / 100 mod 10) in *.
  set (y1 := y / 10 mod 10) in *. set (y0 := y mod 10) in *.
  set (cy3 := cy / 1000 mod 10) in *. set (cy2 := cy / 100 mod 10) in *.
  set (cy1 := cy / 10 mod 10) in *. set (cy0 := cy mod 10) in *.
  set (m1 := m / 10 mod 10) in *. set (m0 := m mod 10) in *.
  set (cm1 := cm / 10 mod 10) in *. set (cm0 := cm mod 10) in *.
  set (d1 := dd / 10 mod 10) in *. set (d0 := dd mod 10) in *.
  set (cd1 := cd / 10 mod 10) in *. set (cd0 := cd mod 10) in *.
  clearbody y3 y2 y1 y0 cy3 cy2 cy1 cy0 m1 m0 cm1 cm0 d1 d0 cd1 cd0.
  repeat (rewrite append_cons || rewrite append_nil).
  rewrite !compare_digit by assumption. rewrite compare_same.
  rewrite !compare_digit by assumption. rewrite compare_same.
  rewrite !compare_digit by assumption.
  destruct (Z.compare_spec y3 cy3); [|split; [intros _|done]; lia|split; [done|lia]].
  destruct (Z.compare_spec y2 cy2); [|split; [intros _|done]; lia|split; [done|lia]].
  destruct (Z.compare_spec y1 cy1); [|split; [intros _|done]; lia|split; [done|lia]].
  destruct (Z.compare_spec y0 cy0); [|split; [intros _|done]; lia|split; [done|lia]].
  destruct (Z.compare_spec m1 cm1); [|split; [intros _|done]; lia|split; [done|lia]].
  destruct (Z.compare_spec m0 cm0); [|split; [intros _|done]; lia|split; [done|lia]].
  destruct (Z.compare_spec d1 cd1); [|split; [intros _|done]; lia|split; [done|lia]].
  destruct (Z.compare_spec d0 cd0); [|split; [intros _|done]; lia|split; [done|lia]].
  destruct rest; (split; [done|lia]).
Qed.

(** X10. Which sessions a bulk deletion selects. For a cutoff day, the
    sessions selected by [delete_old_sessions_menu] include every session
    whose metadata is missing or has no time stamp, however recent it is;
    and a session stamped by [run_crawler] on the day [d] is selected
    exactly when [d] is a calendar day earlier than the cutoff day, so
    that the sessions of the cutoff day itself are kept whatever their
    time. *)
Theorem old_sessions_selected (cutoff : Date) (sessions : list Session) :
  calendar_day cutoff ->
  (∀ s, s ∈ sessions -> metadata_timestamp s = None -> s ∈ sessions_before cutoff sessions) ∧
  (∀ s d hour minute second,
     s ∈ sessions -> calendar_day d ->
     metadata_timestamp s = Some (strftime_stamp d hour minute second) ->
     (s ∈ sessions_before cutoff sessions ↔ earlier d cutoff)).
Proof.
  intros Hcutoff. unfold sessions_before. split.
  - intros s Hs Hnone. apply list_elem_of_In, filter_In.
    split; [by apply list_elem_of_In|]. by rewrite Hnone.
  - intros s d hour minute second Hs Hd Hstamp.
    rewrite <- (date_compare d cutoff
                  (" " +:+ two_digits hour +:+ ":" +:+ two_digits minute
                       +:+ ":" +:+ two_digits second) Hd Hcutoff).
    rewrite list_elem_of_In, filter_In, Hstamp. cbn [default].
    unfold strftime_stamp. split; [by intros [_ ?]|].
    intros Hlt. split; [by apply list_elem_of_In|done].
Qed.

(** ** The width of a header *)

Lemma len_append (s t : string) : len (s +:+ t) = len s + len t.
Proof.
  unfold len. rewrite list_ascii_of_string_append, List.filter_app, length_app. lia.
Qed.

Lemma len_spaces (n : Z) : len (spaces n) = Z.max 0 n.
Proof.
  unfold len, spaces. rewrite list_ascii_of_string_of_list_ascii.
  assert (Hk : ∀ k f, f " "%char = true ->
                      length (List.filter f (replicate k " "%char)) = k).
  { intros k f Hf. induction k as [|k IH]; [done|]. simpl. rewrite Hf. simpl. by rewrite IH. }
  rewrite Hk by done. lia.
Qed.

(** X11. The middle line of a header. The text that [print_header] puts
    between the bars is 59 characters wide whenever the text given has at
    most 59 characters, and then the text stands in the middle, the odd
    space on its right; a longer text is printed as it is and pushes the
    right bar out. *)
Theorem header_width (text : string) :
  len (centered text) = Z.max 59 (len text) ∧
  (len text <= 59 ->
   ∃ left right, centered text = spaces left +:+ text +:+ spaces right ∧
                 0 <= left <= right ∧ right <= left + 1 ∧ left + len text + right = 59) ∧
  (59 <= len text -> centered text = text).
Proof.
  unfold centered.
  assert (Hlen : 0 <= len text) by (unfold len; lia).
  split; [|split].
  - rewrite !len_append, !len_spaces. Z.div_mod_to_equations. lia.
  - intros Hshort. exists ((59 - len text) / 2), (59 - (59 - len text) / 2 - len text).
    split; [done|]. Z.div_mod_to_equations. lia.
  - intros Hlong.
    assert (H1 : Z.to_nat ((59 - len text) / 2) = 0%nat) by (Z.div_mod_to_equations; lia).
    assert (H2 : Z.to_nat (59 - (59 - len text) / 2 - len text) = 0%nat)
      by (Z.div_mod_to_equations; lia).
    unfold spaces. rewrite H1, H2. simpl. apply append_empty_r.
Qed.

(** ** Names of directories *)

Section NamesFacts.
Context {W : World}.
Variable word_wide : string -> bool.

Lemma contains_true_append (c : ascii) (s t : string) :
  contains c (s +:+ t) = true -> contains c s = true ∨ contains c t = true.
Proof. rewrite contains_append. by intros [?|?]%orb_true_iff; [left|right]. Qed.

Lemma contains_one (c a : ascii) : contains c (String a "") = true -> c = a.
Proof.
  rewrite contains_cons. intros [H|H]%orb_true_iff; [|done]. by apply Ascii.eqb_eq in H.
Qed.

Lemma underscore_within others : word_ascii "_" || others "_"%char = true.
Proof. reflexivity. Qed.

Lemma sub_wide_within others (pending : string) :
  (∀ c, contains c pending = true -> is_ascii c = false) ->
  ascii_within others (sub_wide word_wide pending).
Proof.
  intros Hp c Hc Hascii. destruct pending as [|a p]; [done|].
  unfold sub_wide in Hc. destruct (word_wide (String a p)).
  - apply Hp in Hc. congruence.
  - apply contains_one in Hc as ->. apply underscore_within.
Qed.

Lemma ascii_within_append others (s t : string) :
  ascii_within others s -> ascii_within others t -> ascii_within others (s +:+ t).
Proof. intros Hs Ht c [Hc|Hc]%contains_true_append Hascii; [by apply Hs|by apply Ht]. Qed.

Lemma ascii_within_cons others (a : ascii) (s : string) :
  (is_ascii a = true -> word_ascii a || others a = true) ->
  ascii_within others s -> ascii_within others (String a s).
Proof.
  intros Ha Hs c Hc Hascii. rewrite contains_cons in Hc.
  apply orb_true_iff in Hc as [Hc|Hc]; [|by apply Hs].
  apply Ascii.eqb_eq in Hc as ->. by apply Ha.
Qed.

Lemma sub_from_within others (s pending : string) :
  (∀ c, contains c pending = true -> is_ascii c = false) ->
  ascii_within others (sub_from word_wide others pending s).
Proof.
  revert pending. induction s as [|a s IH]; intros pending Hp.
  - by apply sub_wide_within.
  - assert (Hnil : ∀ c, contains c "" = true -> is_ascii c = false) by done.
    simpl. destruct (is_ascii a) eqn:Ha.
    + apply ascii_within_append; [by apply sub_wide_within|].
      apply ascii_within_cons; [|by apply IH].
      intros _. destruct (word_ascii a || others a) eqn:Hk; [done|apply underscore_within].
    + destruct (continues a).
      * destruct pending as [|b p].
        -- apply ascii_within_cons; [intros _; apply underscore_within|by apply IH].
        -- apply IH. intros c [Hc|Hc]%contains_true_append; [by apply Hp|].
           apply contains_one in Hc. by subst.
      * apply ascii_within_append; [by apply sub_wide_within|].
        apply IH. intros c Hc. apply contains_one in Hc. by subst.
Qed.

Lemma re_sub_within others (s : string) : ascii_within others (re_sub word_wide others s).
Proof. by apply sub_from_within. Qed.

Lemma sub_from_fixed others (s : string) :
  ascii_of_class others s -> sub_from word_wide others "" s = s.
Proof.
  induction s as [|a s IH]; intros Hs; [done|].
  destruct (Hs a) as [Ha Hk]; [by rewrite contains_cons, Ascii.eqb_refl|].
  simpl. rewrite Ha, Hk, append_nil. f_equal. apply IH.
  intros c Hc. apply Hs. rewrite contains_cons, Hc. apply orb_true_r.
Qed.

Lemma str_replace_fixed (old new : ascii) (s : string) :
  contains old s = false -> str_replace old new s = s.
Proof.
  induction s as [|a s IH]; [done|]. rewrite contains_cons. intros [Ha Hs]%orb_false_iff.
  simpl. rewrite Ascii.eqb_sym, Ha. f_equal. by apply IH.
Qed.

(** X12. Directory names. The name that [sanitize_domain] returns holds no
    ASCII character but letters, digits, [_], [.] and [-], so no slash, no
    colon and no blank; the name that [create_session_directory] makes of a
    custom session name holds no point either. A host name made of those
    characters that does not start with [www.] is returned as it is, which
    goes for the empty name and for [..] too. *)
Theorem directory_names_safe (url : string) :
  ascii_within dot_or_dash (sanitize_domain word_wide url) ∧
  (∀ name timestamp, name ≠ "" ->
     ascii_within dash (session_name word_wide (Some name) timestamp)) ∧
  (ascii_of_class dot_or_dash (netloc url) -> startswith (netloc url) "www." = false ->
   sanitize_domain word_wide url = netloc url).
Proof.
  split; [|split].
  - apply re_sub_within.
  - intros name timestamp Hne. unfold session_name.
    apply String.eqb_neq in Hne. rewrite Hne. apply re_sub_within.
  - intros Hclass Hwww. unfold sanitize_domain. rewrite Hwww.
    rewrite str_replace_fixed.
    + by apply sub_from_fixed.
    + destruct (contains ":" (netloc url)) eqn:Hc; [|done].
      by destruct (Hclass ":"%char Hc) as [_ Hk].
Qed.

End NamesFacts.


(** ** Runs on the sample sites *)

Section FurtherRuns.
#[local] Existing Instance Sample.docs_world.

Lemma crawl_list_read_back_witness :
  ∃ self, crawl 6 (PDFCrawler_init "https://ex.com/docs" 2) = Some self ∧
          read_urls (save_pdf_list (pdf_urls self)) = sorted (pdf_urls self).
Proof.
  eexists. split; [vm_compute; reflexivity|].
  refine (proj1 (crawl_list_read_back "https://ex.com/docs" 2 6 _ _ _)).
  - vm_compute. reflexivity.
  - intros pdf Hpdf. apply elem_of_elements in Hpdf. vm_compute in Hpdf.
    literal_list_cases Hpdf; repeat split; reflexivity.
Defined.

Lemma finder_subsumes_crawler_witness :
  ∃ self st, crawl 6 (PDFCrawler_init "https://ex.com/docs" 1) = Some self ∧
             find_all_pdfs 10 "https://ex.com/docs" = Some st ∧
             visited_urls self ⊆ visited st ∧ pdf_urls self ⊆ pdfs st.
Proof.
  destruct (crawl 6 (PDFCrawler_init "https://ex.com/docs" 1)) as [self|] eqn:Hcrawl;
    [|vm_compute in Hcrawl; discriminate Hcrawl].
  destruct (find_all_pdfs 10 "https://ex.com/docs") as [st|] eqn:Hscan;
    [|vm_compute in Hscan; discriminate Hscan].
  exists self, st. split; [reflexivity|]. split; [reflexivity|].
  exact (finder_subsumes_crawler "https://ex.com/docs" 1 6 10 self st Hcrawl Hscan).
Defined.

Lemma deeper_crawl_finds_more_witness :
  1 <= 2 ∧
  ∃ self self', crawl 6 (PDFCrawler_init "https://ex.com/docs" 1) = Some self ∧
                crawl 6 (PDFCrawler_init "https://ex.com/docs" 2) = Some self' ∧
                visited_urls self ⊆ visited_urls self' ∧ pdf_urls self ⊆ pdf_urls self'.
Proof.
  split; [lia|].
  destruct (crawl 6 (PDFCrawler_init "https://ex.com/docs" 1)) as [self|] eqn:Hcrawl;
    [|vm_compute in Hcrawl; discriminate Hcrawl].
  destruct (crawl 6 (PDFCrawler_init "https://ex.com/docs" 2)) as [self'|] eqn:Hcrawl';
    [|vm_compute in Hcrawl'; discriminate Hcrawl'].
  exists self, self'. split; [reflexivity|]. split; [reflexivity|].
  refine (proj2 (deeper_crawl_finds_more "https://ex.com/docs" 1 2 6 6 self self' _
                   Hcrawl Hcrawl')).
  lia.
Defined.

End FurtherRuns.

Section BrokenLinkSearch.
#[local] Existing Instance Sample.broken_link_world.

Lemma crawl_breadth_first_witness :
  ∃ self, crawl 4 (PDFCrawler_init "https://ex.com/docs" 2) = Some self ∧
          get_log self = ["https://ex.com/docs"; "https://ex.com/docs/a"] ∧
          (get_page_links (PDFCrawler_init "https://ex.com/docs" 2) "https://ex.com/docs/a").1
          = ∅ ∧
          (∀ url, url ∈ get_log self ↔
                  ∃ d : nat, Z.of_nat d <= 2 ∧
                             link_chain (PDFCrawler_init "https://ex.com/docs" 2) d url) ∧
          ¬ ∃ d : nat, Z.of_nat d <= 2 ∧
                       link_chain (PDFCrawler_init "https://ex.com/docs" 2) d
                         "https://ex.com/docs/b".
Proof.
  destruct (crawl 4 (PDFCrawler_init "https://ex.com/docs" 2)) as [self|] eqn:Hrun;
    [|vm_compute in Hrun; discriminate Hrun].
  pose proof (proj1 (crawl_breadth_first "https://ex.com/docs" 2 4 self Hrun)) as Hfetched.
  assert (get_log self = ["https://ex.com/docs"; "https://ex.com/docs/a"]) as Hlog.
  { vm_compute in Hrun. by injection Hrun as <-. }
  exists self. split; [reflexivity|]. split; [exact Hlog|].
  split; [vm_compute; reflexivity|]. split; [exact Hfetched|].
  intros Hchain. apply Hfetched in Hchain. rewrite Hlog in Hchain.
  literal_list_absurd Hchain.
Defined.

Lemma find_all_pdfs_reachable_witness :
  ∃ st, find_all_pdfs 5 "https://ex.com/docs" = Some st ∧
        scan_log st
        = ["https://ex.com/docs"; "https://ex.com/docs/a"; "https://ex.com/docs/b"] ∧
        page_targets "https://ex.com/docs/a"
        = ["https://ex.com/docs/first.pdf"; "https://ex.com/docs/b"] ∧
        (∀ url, url ∈ scan_log st ↔ scan_reachable "https://ex.com/docs" url) ∧
        ¬ scan_reachable "https://ex.com/docs" "https://ex.com/docs/c".
Proof.
  destruct (find_all_pdfs 5 "https://ex.com/docs") as [st|] eqn:Hrun;
    [|vm_compute in Hrun; discriminate Hrun].
  pose proof (proj2 (proj2 (find_all_pdfs_reachable "https://ex.com/docs" 5 st Hrun)))
    as Hfetched.
  assert (scan_log st
          = ["https://ex.com/docs"; "https://ex.com/docs/a"; "https://ex.com/docs/b"]) as Hlog.
  { vm_compute in Hrun. by injection Hrun as <-. }
  exists st. split; [reflexivity|]. split; [exact Hlog|].
  split; [vm_compute; reflexivity|]. split; [exact Hfetched|].
  intros Hreach. apply Hfetched in Hreach. rewrite Hlog in Hreach.
  literal_list_absurd Hreach.
Defined.

End BrokenLinkSearch.

Lemma pdf_list_round_trip_witness :
  (∀ url, url ∈ ({[ "https://ex.com/b.pdf" ]} ∪ {[ "https://ex.com/a.PDF" ]} : gset string) ->
          survives_list url) ∧
  read_pdf_list (save_pdf_list ({[ "https://ex.com/b.pdf" ]} ∪ {[ "https://ex.com/a.PDF" ]}))
  = sorted ({[ "https://ex.com/b.pdf" ]} ∪ {[ "https://ex.com/a.PDF" ]}).
Proof.
  assert (H : ∀ url,
             url ∈ ({[ "https://ex.com/b.pdf" ]} ∪ {[ "https://ex.com/a.PDF" ]} : gset string) ->
             survives_list url).
  { intros url [Hu|Hu]%elem_of_union; apply elem_of_singleton in Hu; subst;
      repeat split; (discriminate || reflexivity). }
  split; [exact H|]. exact (proj1 (pdf_list_round_trip _ H)).
Defined.

Lemma old_sessions_selected_witness :
  calendar_day (mkDate 2026 10 27) ∧
  (mkSession "data/ex.com/first" None
     ∈ sessions_before (mkDate 2026 10 27)
         [ mkSession "data/ex.com/first" None;
           mkSession "data/ex.com/second" (Some (strftime_stamp (mkDate 2026 10 27) 0 0 1)) ]) ∧
  (mkSession "data/ex.com/second" (Some (strftime_stamp (mkDate 2026 10 27) 0 0 1))
     ∉ sessions_before (mkDate 2026 10 27)
         [ mkSession "data/ex.com/first" None;
           mkSession "data/ex.com/second" (Some (strftime_stamp (mkDate 2026 10 27) 0 0 1)) ]).
Proof.
  assert (H : calendar_day (mkDate 2026 10 27)) by (unfold calendar_day; simpl; lia).
  split; [exact H|].
  destruct (old_sessions_selected (mkDate 2026 10 27)
              [ mkSession "data/ex.com/first" None;
                mkSession "data/ex.com/second"
                  (Some (strftime_stamp (mkDate 2026 10 27) 0 0 1)) ] H) as [Hnone Hstamp].
  split.
  - apply Hnone; [|reflexivity]. by apply elem_of_cons; left.
  - intros Hin. apply (Hstamp _ (mkDate 2026 10 27) 0 0 1) in Hin; [|..|exact H|reflexivity].
    + unfold earlier in Hin. simpl in Hin. lia.
    + apply elem_of_cons; right. by apply elem_of_cons; left.
Defined.
